(** * Round-trip significance classification (tests/roundtrip-test.js)

    A shallow embedding of the source-range-to-DOM node matcher
    ([findMatchingNodes] / [walkDOM]), the wikitext normalizer
    ([normalizeWikitext]) and the significance classifier
    ([checkIfSignificant]) of the round-trip tester, and the properties
    of them that the specification states.

    Conventions.
    - A JavaScript string is a list of code units; the development covers
      code units below 256, held in [ascii].  At the interface the type is
      [string].
    - JavaScript numbers that hold offsets are integers, held in [Z].
    - Regular expressions are values of [regex], run by a backtracking
      matcher that follows the ECMAScript pattern semantics (ordered
      alternation, greedy and lazy quantifiers, lookahead, captures). *)

From Stdlib Require Import String Ascii List ZArith Lia Bool Arith.
From Stdlib Require DecimalString.
Import ListNotations.

Set Implicit Arguments.

(* ================================================================== *)
(** ** JavaScript strings and regular expressions                       *)
(* ================================================================== *)

Module Js.

Definition str := list ascii.

Definition tab : ascii := "009"%char.
Definition nl  : ascii := "010"%char.
Definition cr  : ascii := "013"%char.
Definition sp  : ascii := " "%char.
Definition dq  : ascii := ascii_of_nat 34.

Definition s2l (s : string) : str := list_ascii_of_string s.
Definition l2s (l : str) : string := string_of_list_ascii l.

Definition code (c : ascii) : nat := nat_of_ascii c.

Definition inRange (lo hi : nat) (c : ascii) : bool :=
  (lo <=? code c) && (code c <=? hi).

(** [String.prototype.toLowerCase] on code units below 256: A-Z and the
    Latin-1 capitals U+00C0..U+00DE (U+00D7 apart) move up by 32. *)
Definition lowerChar (c : ascii) : ascii :=
  if inRange 65 90 c || (inRange 192 222 c && negb (code c =? 215))
  then ascii_of_nat (code c + 32) else c.

Definition toLowerCase (s : str) : str := map lowerChar s.

(** Canonicalize of a case-insensitive pattern character: upper case of
    the ASCII letters (the patterns below hold ASCII letters only). *)
Definition upperAscii (c : ascii) : ascii :=
  if inRange 97 122 c then ascii_of_nat (code c - 32) else c.

(** [\s] on code units below 256. *)
Definition isSpace (c : ascii) : bool :=
  inRange 9 13 c || (code c =? 32) || (code c =? 160).

(** [\w], used by [\b]. *)
Definition isWordChar (c : ascii) : bool :=
  inRange 48 57 c || inRange 65 90 c || inRange 97 122 c || (code c =? 95).

(** [.] matches everything but a line terminator. *)
Definition isDot (c : ascii) : bool :=
  negb (Ascii.eqb c nl || Ascii.eqb c cr).

Definition memc (cs : str) (c : ascii) : bool := existsb (Ascii.eqb c) cs.

(** *** Patterns *)

Inductive regex : Type :=
| Eps
| Chr (p : ascii -> bool)
| Seq (r1 r2 : regex)
| Alt (r1 r2 : regex)
| Star (greedy : bool) (r : regex)
| Grp (i : nat) (r : regex)
| Look (positive : bool) (r : regex)
| Bol
| Eol
| WordB.

Definition ch (c : ascii) : regex := Chr (Ascii.eqb c).
Definition chi (c : ascii) : regex :=
  Chr (fun x => Ascii.eqb (upperAscii x) (upperAscii c)).
Definition oneof (cs : string) : regex := Chr (memc (s2l cs)).
Definition noneof (cs : string) : regex := Chr (fun c => negb (memc (s2l cs) c)).
Definition plus (r : regex) : regex := Seq r (Star true r).
Definition opt (r : regex) : regex := Alt r Eps.

Fixpoint litl (cs : str) : regex :=
  match cs with
  | [] => Eps
  | c :: t => Seq (ch c) (litl t)
  end.
Definition lit (s : string) : regex := litl (s2l s).

Fixpoint litil (cs : str) : regex :=
  match cs with
  | [] => Eps
  | c :: t => Seq (chi c) (litil t)
  end.
Definition liti (s : string) : regex := litil (s2l s).

Declare Scope re_scope.
Delimit Scope re_scope with re.
Bind Scope re_scope with regex.
Infix "+++" := Seq (at level 60, right associativity) : re_scope.
Infix "<|>" := Alt (at level 70, right associativity) : re_scope.

(** *** The backtracking matcher *)

Record mstate : Type := MState {
  prev : option ascii;          (* the code unit before the position *)
  rest : str;                   (* the input from the position on *)
  caps : list (nat * str)       (* captures made so far, latest first *)
}.

Definition cont := mstate -> option mstate.

Definition consumed (x y : mstate) : str :=
  firstn (length (rest x) - length (rest y)) (rest x).

Definition setcap (i : nat) (s : str) (y : mstate) : mstate :=
  MState (prev y) (rest y) ((i, s) :: caps y).

Definition wordBefore (x : mstate) : bool :=
  match prev x with Some c => isWordChar c | None => false end.
Definition wordAfter (x : mstate) : bool :=
  match rest x with c :: _ => isWordChar c | [] => false end.

(** The iterations of a starred pattern, whose matcher is [step]: [n]
    bounds their number, and an iteration that consumes nothing is
    rejected.  A greedy star tries one more iteration before it goes on,
    a lazy star goes on first. *)
Fixpoint starLoop (step : mstate -> cont -> option mstate) (g : bool)
         (k : cont) (n : nat) (x : mstate) {struct n} : option mstate :=
  match n with
  | O => k x
  | S n' =>
      let again := fun y =>
        if length (rest y) <? length (rest x)
        then starLoop step g k n' y else None in
      if g then
        match step x again with
        | Some z => Some z
        | None => k x
        end
      else
        match k x with
        | Some z => Some z
        | None => step x again
        end
  end.

Fixpoint m (r : regex) (x : mstate) (k : cont) {struct r} : option mstate :=
  match r with
  | Eps => k x
  | Chr p =>
      match rest x with
      | c :: t => if p c then k (MState (Some c) t (caps x)) else None
      | [] => None
      end
  | Seq r1 r2 => m r1 x (fun y => m r2 y k)
  | Alt r1 r2 =>
      match m r1 x k with
      | Some z => Some z
      | None => m r2 x k
      end
  | Star g r1 => starLoop (m r1) g k (S (length (rest x))) x
  | Grp i r1 => m r1 x (fun y => k (setcap i (consumed x y) y))
  | Look true r1 =>
      match m r1 x (fun y => Some y) with
      | Some y => k (MState (prev x) (rest x) (caps y))
      | None => None
      end
  | Look false r1 =>
      match m r1 x (fun y => Some y) with
      | Some _ => None
      | None => k x
      end
  | Bol => match prev x with None => k x | Some _ => None end
  | Eol => match rest x with [] => k x | _ :: _ => None end
  | WordB => if xorb (wordBefore x) (wordAfter x) then k x else None
  end.

(** [Requires P r]: a match of [r] consumes a code unit that
    satisfies [P]. *)
Inductive Requires (P : ascii -> bool) : regex -> Prop :=
| RqChr (p : ascii -> bool) :
    (forall c, p c = true -> P c = true) -> Requires P (Chr p)
| RqSeqL (r1 r2 : regex) : Requires P r1 -> Requires P (Seq r1 r2)
| RqSeqR (r1 r2 : regex) : Requires P r2 -> Requires P (Seq r1 r2)
| RqAlt (r1 r2 : regex) :
    Requires P r1 -> Requires P r2 -> Requires P (Alt r1 r2)
| RqGrp (i : nat) (r : regex) : Requires P r -> Requires P (Grp i r).

(** The position of [y] is at or after the position of [x]. *)
Definition Suffix (y x : mstate) : Prop := exists l, rest x = l ++ rest y.

(** One match attempt at a position: the length of the match and its
    captures. *)
Definition exec (r : regex) (p : option ascii) (s : str)
  : option (nat * list (nat * str)) :=
  match m r (MState p s []) (fun y => Some y) with
  | Some y => Some (length s - length (rest y), caps y)
  | None => None
  end.

Fixpoint getcap (i : nat) (cs : list (nat * str)) : str :=
  match cs with
  | [] => []
  | (j, s) :: t => if Nat.eqb i j then s else getcap i t
  end.

(** [RegExp.prototype.test] / a truthy [String.prototype.match] *)
Fixpoint testFrom (r : regex) (p : option ascii) (s : str) : bool :=
  match exec r p s with
  | Some _ => true
  | None =>
      match s with
      | [] => false
      | c :: t => testFrom r (Some c) t
      end
  end.
Definition test (r : regex) (s : str) : bool := testFrom r None s.

(** [str.replace(/r/g, f)]: [skip] code units of the last match are
    still to be passed over. *)
Fixpoint replaceFrom (r : regex) (f : str -> list (nat * str) -> str)
         (p : option ascii) (s : str) (skip : nat) {struct s} : str :=
  match skip with
  | S k =>
      match s with
      | [] => []
      | c :: t => replaceFrom r f (Some c) t k
      end
  | O =>
      match exec r p s with
      | Some (len, cs) =>
          f (firstn len s) cs ++
          match s with
          | [] => []
          | c :: t =>
              match len with
              | O => c :: replaceFrom r f (Some c) t 0
              | S l => replaceFrom r f (Some c) t l
              end
          end
      | None =>
          match s with
          | [] => []
          | c :: t => c :: replaceFrom r f (Some c) t 0
          end
      end
  end.
Definition replaceAll (r : regex) (f : str -> list (nat * str) -> str)
           (s : str) : str :=
  replaceFrom r f None s 0.

(** [str.replace(/r/, f)] without the [g] flag: the first match only. *)
Fixpoint replaceFirstFrom (r : regex) (f : str -> list (nat * str) -> str)
         (p : option ascii) (s : str) {struct s} : str :=
  match exec r p s with
  | Some (len, cs) => f (firstn len s) cs ++ skipn len s
  | None =>
      match s with
      | [] => []
      | c :: t => c :: replaceFirstFrom r f (Some c) t
      end
  end.
Definition replaceFirst (r : regex) (f : str -> list (nat * str) -> str)
           (s : str) : str :=
  replaceFirstFrom r f None s.

(** [String.prototype.substring(a, b)]: both ends clamped to the string,
    swapped when out of order. *)
Definition clamp (len : Z) (a : Z) : Z := Z.min (Z.max a 0) len.

Definition substring (s : str) (a b : Z) : str :=
  let len := Z.of_nat (length s) in
  let a' := clamp len a in
  let b' := clamp len b in
  let lo := Z.min a' b' in
  let hi := Z.max a' b' in
  firstn (Z.to_nat (hi - lo)) (skipn (Z.to_nat lo) s).

(** [String.prototype.substr(start, length)]: a negative start counts
    from the end. *)
Definition substr (s : str) (start len : Z) : str :=
  let size := Z.of_nat (length s) in
  let st := if (start <? 0)%Z then Z.max (size + start) 0 else Z.min start size in
  let n := Z.min (Z.max len 0) (size - st) in
  firstn (Z.to_nat n) (skipn (Z.to_nat st) s).

End Js.

(* ================================================================== *)
(** ** The wikitext normalizer                                          *)
(* ================================================================== *)

Module Wt.
Import Js.
Local Open Scope re_scope.

(** [/^\t/] *)
Definition reLeadingTab : regex := Bol +++ ch tab.

(** [/\n\t/g] *)
Definition reNlTab : regex := ch nl +++ ch tab.

(** [/ +/g] *)
Definition reSpaces : regex := plus (ch sp).

(** [/<(\/?)([^ >\/]+)((?:[^>\/]|\/(?!>))* )\/?>/g] (a blank added
    after the star) *)
Definition reTag : regex :=
  ch "<" +++ Grp 1 (opt (ch "/")) +++ Grp 2 (plus (noneof " >/")) +++
  Grp 3 (Star true (noneof ">/" <|> (ch "/" +++ Look false (ch ">")))) +++
  opt (ch "/") +++ ch ">".

(** [/ $/] *)
Definition reTrailingSpace : regex := ch sp +++ Eol.

Definition tagCallback (_ : str) (cs : list (nat * str)) : str :=
  s2l "<" ++ getcap 1 cs ++ toLowerCase (getcap 2 cs) ++
  replaceFirst reTrailingSpace (fun _ _ => []) (getcap 3 cs) ++ s2l ">".

Definition barOrNl (c : ascii) : bool := Ascii.eqb c "|" || Ascii.eqb c nl.

(** [/(^|\n|\|(?=\|)|!(?=!))(\{\||\|[\-+]*|!) *([^|\n]*?) *(?=[|\n]|$)/g] *)
Definition reTableAttrs : regex :=
  Grp 1 (Bol <|> ch nl <|> (ch "|" +++ Look true (ch "|"))
             <|> (ch "!" +++ Look true (ch "!"))) +++
  Grp 2 (lit "{|" <|> (ch "|" +++ Star true (oneof "-+")) <|> ch "!") +++
  Star true (ch sp) +++
  Grp 3 (Star false (Chr (fun c => negb (barOrNl c)))) +++
  Star true (ch sp) +++
  Look true (Chr barOrNl <|> Eol).

Definition notDq (c : ascii) : bool := negb (Ascii.eqb c dq).

(** [/style\s*=\s*Q[^Q]+Q/g], writing Q for the double quote *)
Definition reStyle : regex :=
  lit "style" +++ Star true (Chr isSpace) +++ ch "=" +++
  Star true (Chr isSpace) +++ ch dq +++ plus (Chr notDq) +++ ch dq.

(** [/\s|;(?=Q)/g] *)
Definition reStyleJunk : regex :=
  Chr isSpace <|> (ch ";" +++ Look true (ch dq)).

Definition styleCallback (matched : str) (_ : list (nat * str)) : str :=
  replaceAll reStyleJunk (fun _ _ => []) matched.

(** [/Q([^Q]*?)Q/g] *)
Definition reQuoted : regex :=
  ch dq +++ Grp 1 (Star false (Chr notDq)) +++ ch dq.

(** [(?=\n[|!]|\n?$)] *)
Definition cellBoundaryAhead : regex :=
  Look true ((ch nl +++ oneof "|!") <|> (opt (ch nl) +++ Eol)).

(** [/(^|\n)<\/(?:small|center)>(?=\n[|!]|\n?$)/g] *)
Definition reLoneClose : regex :=
  Grp 1 (Bol <|> ch nl) +++ lit "</" +++ (lit "small" <|> lit "center") +++
  ch ">" +++ cellBoundaryAhead.

(** [/([|!].*?)<\/(?:small|center)>(?=\n[|!]|\n?$)/gi] *)
Definition reCellClose : regex :=
  Grp 1 (oneof "|!" +++ Star false (Chr isDot)) +++ lit "</" +++
  (liti "small" <|> liti "center") +++ ch ">" +++ cellBoundaryAhead.

(** The rules of [normalizeWikitext], in the order the source applies
    them, on code-unit lists. *)
Definition normalize (str0 : str) : str :=
  (* Ignore leading tabs vs. leading spaces *)
  let str1 := replaceFirst reLeadingTab (fun _ _ => [sp]) str0 in
  let str2 := replaceAll reNlTab (fun _ _ => [nl; sp]) str1 in
  (* Normalize multiple spaces to single space *)
  let str3 := replaceAll reSpaces (fun _ _ => [sp]) str2 in
  (* Ignore capitalization of tags and void tag indications *)
  let str4 := replaceAll reTag tagCallback str3 in
  (* Ignore whitespace in table cell attributes *)
  let str5 := replaceAll reTableAttrs
                (fun _ cs => getcap 1 cs ++ getcap 2 cs ++ getcap 3 cs) str4 in
  (* Ignore trailing semicolons and spaces in style attributes *)
  let str6 := replaceAll reStyle styleCallback str5 in
  (* Strip double-quotes *)
  let str7 := replaceAll reQuoted (fun _ cs => getcap 1 cs) str6 in
  (* Ignore implicit </small> and </center> in table cells or the end
     of the string *)
  let str8 := replaceAll reLoneClose (fun _ _ => []) str7 in
  replaceAll reCellClose (fun _ cs => getcap 1 cs) str8.

Definition normalizeWikitext (s : string) : string := l2s (normalize (s2l s)).

(** Predicates for the statements on the normalizer.  The code units that
    a rule other than the collapsing of spaces needs: tab, [<], the double
    quote, [|] and [!]; a text is plain when it holds none of them. *)
Definition special (c : ascii) : bool :=
  memc [tab; "<"%char; dq; "|"%char; "!"%char] c.

Definition plain (l : str) : Prop := forall c, In c l -> special c = false.

(** The number of spaces a text starts with. *)
Fixpoint run (s : str) : nat :=
  match s with
  | c :: t => if Ascii.eqb sp c then S (run t) else O
  | [] => O
  end.

Definition headSp (s : str) : bool :=
  match s with
  | c :: _ => Ascii.eqb sp c
  | [] => false
  end.

(** No two spaces in a row. *)
Fixpoint noDouble (s : str) : bool :=
  match s with
  | a :: t => negb (Ascii.eqb sp a && headSp t) && noDouble t
  | [] => true
  end.

(** The replacement of the rule that collapses spaces. *)
Definition oneSpace (_ : str) (_ : list (nat * str)) : str := [sp].

End Wt.

(* ================================================================== *)
(** ** The annotated DOM                                                *)
(* ================================================================== *)

Module Dom.
Import Js.

(** The object a [data-parsoid] attribute holds; only its [dsr] member is
    read here.  [dsr] is the array when the member is present: its start
    and end entries are a number or [null]. *)
Record DataParsoid : Type := mkDp {
  dsr : option (option Z * option Z)
}.

(** The text of the [data-parsoid] attribute of an element: missing (or
    empty), text that [JSON.parse] rejects, the JSON text [null], or the
    text of an object.  (The text of a JSON number, string, boolean or
    array has no [dsr] member to read and is an object without [dsr]
    here.) *)
Inductive DpAttr : Type :=
| DpAbsent
| DpInvalid
| DpNull
| DpJson (dp : DataParsoid).

Record Attrs : Type := mkAttrs {
  nodeName : string;
  dataParsoid : DpAttr;
  typeOf : string                (* the [typeof] attribute, empty if absent *)
}.

#[local] Unset Elimination Schemes.
Inductive Node : Type :=
| Elt (a : Attrs) (childNodes : list Node)
| Text (nodeValue : string)
| Comment (nodeValue : string).
#[local] Set Elimination Schemes.

(** Induction over a node and, through the list, its children. *)
Section NodeInduction.

Variable P : Node -> Prop.
Hypothesis HElt : forall a cs, Forall P cs -> P (Elt a cs).
Hypothesis HText : forall v, P (Text v).
Hypothesis HComment : forall v, P (Comment v).

Fixpoint Node_ind' (n : Node) : P n :=
  match n with
  | Elt a cs =>
      HElt a ((fix children (l : list Node) : Forall P l :=
                 match l with
                 | [] => Forall_nil P
                 | c :: l' => Forall_cons c (Node_ind' c) (children l')
                 end) cs)
  | Text v => HText v
  | Comment v => HComment v
  end.

End NodeInduction.

Definition isElt (n : Node) : bool :=
  match n with Elt _ _ => true | _ => false end.
Definition isComment (n : Node) : bool :=
  match n with Comment _ => true | _ => false end.
Definition childNodes (n : Node) : list Node :=
  match n with Elt _ cs => cs | _ => [] end.

(** Every [data-parsoid] attribute in the tree is missing or holds the
    text of an object: none holds text that is not JSON, none the text
    [null]. *)
Fixpoint validMeta (n : Node) : bool :=
  match n with
  | Elt a cs =>
      match dataParsoid a with
      | DpInvalid => false
      | DpNull => false
      | _ => true
      end && forallb validMeta cs
  | _ => true
  end.

(** Modelled from the spec: [DU.getJSONAttribute(element, 'data-parsoid')]
    is not in the sources at hand.  The spec has missing or invalid span
    metadata degrade to an absent span, so a missing attribute, text that
    is not JSON and the text [null] give an object without [dsr]. *)
Definition getJSONAttribute (n : Node) : DataParsoid :=
  match n with
  | Elt a _ =>
      match dataParsoid a with
      | DpJson dp => dp
      | _ => mkDp None
      end
  | _ => mkDp None
  end.

Local Open Scope re_scope.

(** [/\bmw:(?:Transclusion\b|Param\b|Extension\/[^\s]+)/] *)
Definition reEncapsulated : regex :=
  WordB +++ lit "mw:" +++
  ((lit "Transclusion" +++ WordB) <|> (lit "Param" +++ WordB)
   <|> (lit "Extension/" +++ plus (Chr (fun c => negb (isSpace c))))).

Definition typeOfOf (c : Node) : string :=
  match c with Elt a _ => typeOf a | _ => EmptyString end.

Definition isEncapsulated (c : Node) : bool :=
  test reEncapsulated (s2l (typeOfOf c)).

End Dom.

(* ================================================================== *)
(** ** The node matcher                                                 *)
(* ================================================================== *)

Module Matcher.
Import Js Dom.
Local Open Scope Z_scope.

Record Range : Type := mkRange { start : Z; end_ : Z }.

(** The variables that the closure [walkDOM] shares across its calls. *)
Record MatchState : Type := mkState {
  currentOffset : option Z;
  wasWaiting : bool;
  waitingForEndMatch : bool
}.

Record MatchResult : Type := mkResult { done : bool; nodes : list Node }.

Inductive Exn : Type :=
| SyntaxError                    (* thrown by [JSON.parse] *)
| TypeError.                     (* reading a member of [null] *)

Inductive Outcome (A : Type) : Type :=
| Ok (a : A) (st : MatchState)
| Throw (e : Exn).
Arguments Ok {A} a st.
Arguments Throw {A} e.

Definition M (A : Type) : Type := MatchState -> Outcome A.

Definition ret {A} (a : A) : M A := fun st => Ok a st.
Definition bind {A B} (c : M A) (f : A -> M B) : M B :=
  fun st => match c st with
            | Ok a st' => f a st'
            | Throw e => Throw e
            end.
Definition throw {A} (e : Exn) : M A := fun _ => Throw e.
Definition get : M MatchState := fun st => Ok st st.
Definition setCurrentOffset (o : option Z) : M unit :=
  fun st => Ok tt (mkState o (wasWaiting st) (waitingForEndMatch st)).
Definition setWasWaiting (b : bool) : M unit :=
  fun st => Ok tt (mkState (currentOffset st) b (waitingForEndMatch st)).
Definition setWaitingForEndMatch (b : bool) : M unit :=
  fun st => Ok tt (mkState (currentOffset st) (wasWaiting st) b).

Declare Scope m_scope.
Delimit Scope m_scope with m.
Notation "x <- c ;; f" := (bind c (fun x => f))
  (at level 61, c at next level, right associativity) : m_scope.
Notation "c ;;; f" := (bind c (fun _ => f))
  (at level 61, right associativity) : m_scope.
Local Open Scope m_scope.

(** Truthiness of a value that is [null] or a number. *)
Definition truthy (o : option Z) : bool :=
  match o with
  | Some z => negb (z =? 0)
  | None => false
  end.

(** [a || d] for such a value. *)
Definition orElse (o : option Z) (d : Z) : Z :=
  if truthy o then match o with Some z => z | None => d end else d.

(** How a statement sequence inside a function ends. *)
Inductive Flow (R A : Type) : Type :=
| Return (r : R)                 (* a [return] statement was run *)
| Next (a : A).                  (* control falls through *)
Arguments Return {R A} r.
Arguments Next {R A} a.

Section FindMatchingNodes.

Variable targetRange : Range.
Variable sourceLen : Z.

(** [DU.decodedCommentLength], a helper of the DOM utilities that is not
    in the sources at hand. *)
Variable decodedCommentLength : Node -> Z.

(** Modelled from the spec: [DU.skipOverEncapsulatedContent(c)] is not in
    the sources at hand.  The spec has it return the next sibling to
    resume scanning after the entire block; [skipped c siblings] is the
    number of the following siblings that belong to the block of [c]. *)
Variable skipped : Node -> list Node -> nat.

(** Lines 215-217 and 258-262: the length of a text or comment node (an
    element is never measured). *)
Definition nodeLen (n : Node) : Z :=
  match n with
  | Comment _ => decodedCommentLength n
  | Text v => Z.of_nat (String.length v)
  | Elt _ _ => 0
  end.

(** Lines 169-170: [start] and [end] of an element that has a dsr. *)
Definition knownSpan (d : option Z * option Z) : Z * Z :=
  (orElse (fst d) 0, orElse (snd d) (sourceLen - 1)).

(** Line 172. *)
Definition disjoint (span : Z * Z) : bool :=
  (end_ targetRange - 1 <? fst span) || (start targetRange >? snd span - 1).

(** Lines 168-196: the tests on the element's own span. *)
Definition checkSpan (element : Node) (attribs : DataParsoid)
  : M (Flow (option MatchResult) unit) :=
  match dsr attribs with
  | Some (d0, d1) =>
      let start_ := fst (knownSpan (d0, d1)) in
      let end' := snd (knownSpan (d0, d1)) in
      if disjoint (start_, end')
      then ret (Return None)
      else
        st <- get ;;
        if waitingForEndMatch st then
          (if end' >=? end_ targetRange
           then setWaitingForEndMatch false else ret tt) ;;;
          ret (Return (Some (mkResult true [element])))
        else if (match d0 with Some _ => true | None => false end)
                && (start targetRange =? start_)
                && (end' =? end_ targetRange) then
          ret (Return (Some (mkResult true [element])))
        else if start targetRange =? start_ then
          setWaitingForEndMatch true ;;;
          if end' <? end_ targetRange
          then ret (Return (Some (mkResult false [element])))
          else ret (Next tt)
        else if (start_ >? start targetRange) && (end' <? end_ targetRange) then
          ret (Return (Some (mkResult false [element])))
        else ret (Next tt)
  | None => ret (Next tt)
  end.

(** Lines 213-223: pop the nodes without dsr off [precedingNodes] (given
    here top first) while they fit into [diff]; the result is in the order
    they were pushed onto [elesOnOffset]. *)
Fixpoint popPreceding (stack : list Node) (diff : Z) : list Node :=
  match stack with
  | [] => []
  | n :: stack' =>
      if diff >? 0 then
        let len := nodeLen n in
        if len >? diff then [] else n :: popPreceding stack' (diff - len)
      else []
  end.

(** Lines 228-242: a single matched element child decides [res.done] or
    moves [currentOffset]. *)
Definition checkSingleChild (matchedChildren : list Node) (resDone : bool)
  : M bool :=
  match matchedChildren with
  | [Elt a cs] =>
      match dataParsoid a with
      | DpAbsent => ret resDone
      | DpInvalid => throw SyntaxError       (* line 233 *)
      | DpNull => throw TypeError            (* line 234: [null.dsr] *)
      | DpJson childAttribs =>
          match dsr childAttribs with
          | Some (_, d1) =>
              if truthy d1 then
                let e := orElse d1 0 in
                if e >=? end_ targetRange then ret true
                else setCurrentOffset (Some e) ;;; ret resDone
              else ret resDone
          | None => ret resDone
          end
      end
  | _ => ret resDone
  end.

Section Children.

Variable walk : Node -> M (option MatchResult).
Variable attribs : DataParsoid.

(** Lines 202-255: the body of the loop for an element child. *)
Definition visitElement (c : Node) (elements precedingNodes : list Node)
  : M (Flow (option MatchResult) (list Node * list Node)) :=
  res <- walk c ;;
  match res with
  | Some r =>
      st <- get ;;
      matchedChildren <-
        (match dsr attribs with
         | Some (Some d0, _) =>
             if negb (truthy (currentOffset st)) then
               setCurrentOffset (Some d0) ;;;
               let diff := d0 - start targetRange in
               ret (rev (popPreceding (rev precedingNodes) diff) ++ nodes r)
             else ret (nodes r)
         | _ => ret (nodes r)
         end) ;;
      resDone <- checkSingleChild matchedChildren (done r) ;;
      if resDone then ret (Return (Some (mkResult resDone matchedChildren)))
      else ret (Next (matchedChildren, []))
  | None =>
      st <- get ;;
      if wasWaiting st || waitingForEndMatch st
      then ret (Next (elements ++ [c], []))
      else ret (Next (elements, []))
  end.

(** Lines 256-275: the body of the loop for a text or comment child. *)
Definition visitLeaf (c : Node) (elements precedingNodes : list Node)
  : M (list Node * list Node) :=
  st <- get ;;
  (match currentOffset st with
   | Some off =>
       if truthy (Some off) && (off <? end_ targetRange) then
         let off' := off + nodeLen c in
         setCurrentOffset (Some off') ;;;
         if off' >=? end_ targetRange
         then setWaitingForEndMatch false else ret tt
       else ret tt
   | None => ret tt
   end) ;;;
  st <- get ;;
  if wasWaiting st || waitingForEndMatch st then
    ret (elements ++ [c], precedingNodes)
  else if negb (truthy (currentOffset st)) then
    ret (elements, precedingNodes ++ [c])
  else ret (elements, precedingNodes).

(** Lines 198-288: the loop over the children; [skip] siblings are still
    to be passed over after an encapsulated child.  The result is a
    [return] from inside the loop or the [elements] when it ends. *)
Fixpoint scanChildren (cs : list Node) (skip : nat)
         (elements precedingNodes : list Node) {struct cs}
  : M (Flow (option MatchResult) (list Node)) :=
  match cs with
  | [] => ret (Next elements)
  | c :: siblings =>
      match skip with
      | S k => scanChildren siblings k elements precedingNodes
      | O =>
          st <- get ;;
          setWasWaiting (waitingForEndMatch st) ;;;
          r <- (if isElt c then visitElement c elements precedingNodes
                else p <- visitLeaf c elements precedingNodes ;; ret (Next p)) ;;
          match r with
          | Return res => ret (Return res)
          | Next (elements', precedingNodes') =>
              st <- get ;;
              if wasWaiting st && negb (waitingForEndMatch st)
              then ret (Next elements')
              else
                scanChildren siblings
                  (if isEncapsulated c then skipped c siblings else O)
                  elements' precedingNodes'
          end
      end
  end.

End Children.

(** Lines 290-298. *)
Definition finish (element : Node) (elements : list Node)
  : M (option MatchResult) :=
  let numElements := length elements in
  let numChildren := length (childNodes element) in
  if (numElements =? 0)%nat then ret None
  else
    st <- get ;;
    if (numElements <? numChildren)%nat
    then ret (Some (mkResult (negb (waitingForEndMatch st)) elements))
    else ret (Some (mkResult (negb (waitingForEndMatch st)) [element])).

Fixpoint walkDOM (element : Node) {struct element} : M (option MatchResult) :=
  let attribs := getJSONAttribute element in
  f <- checkSpan element attribs ;;
  match f with
  | Return res => ret res
  | Next _ =>
      l <- match element with
           | Elt _ cs => scanChildren walkDOM attribs cs 0 [] []
           | _ => ret (Next [])
           end ;;
      match l with
      | Return res => ret res
      | Next elements => finish element elements
      end
  end.

Definition initialState : MatchState := mkState None false false.

(** Predicates for the statements below: a node without invalid metadata,
    and a result whose nodes are such. *)
Definition Valid (n : Node) : Prop := validMeta n = true.

Definition ValidResult (res : option MatchResult) : Prop :=
  match res with
  | Some r => Forall Valid (nodes r)
  | None => True
  end.

(** What the loop over the children needs of the calls it makes on them. *)
Definition NonEmptyAt (w : Node -> M (option MatchResult)) (c : Node) : Prop :=
  forall st r st', w c st = Ok (Some r) st' -> nodes r <> [].

Definition TotalAt (w : Node -> M (option MatchResult)) (c : Node) : Prop :=
  forall st, exists res st', w c st = Ok res st' /\ ValidResult res.

Definition findMatchingNodes (root : Node) : Outcome (option MatchResult) :=
  walkDOM root initialState.

End FindMatchingNodes.

End Matcher.

(* ================================================================== *)
(** ** The significance classifier                                      *)
(* ================================================================== *)

Module Classifier.
Import Js Wt Dom Matcher.
Local Open Scope Z_scope.
Local Open Scope re_scope.

(** The span objects [{start, end}] live in a heap, by address: the
    classifier writes to them in place.  An offset pair, the array
    [[old, new]], is the pair of the addresses of its two spans. *)
Definition Addr := nat.
Definition Heap := Addr -> Range.
Definition OffsetPair : Type := Addr * Addr.

Definition update (h : Heap) (a : Addr) (r : Range) : Heap :=
  fun b => if Nat.eqb b a then r else h b.

(** The calls whose absence or arguments the specification speaks of. *)
Inductive Call : Type :=
| CallFindMatchingNodes (root : Node) (target : Range) (sourceLen : Z)
| CallHtmlDiff (origHTML newHTML : string).

Record World : Type := mkWorld {
  heap : Heap;
  calls : list Call              (* in the order they were made *)
}.

Inductive Kind : Type := skip | fail.

Record DiffResult : Type := mkDiffResult {
  type : Kind;
  offset : OffsetPair;
  wtDiff : string;
  htmlDiff : option string       (* set on [fail] only *)
}.

(** The members of [data] that [checkIfSignificant] reads, the two
    bodies after [domino.createDocument] and [DU.applyDataParsoid]. *)
Record Data : Type := mkData {
  oldWt : string;
  newWt : string;
  oldBody : Node;
  newBody : Node
}.

Inductive Completion (A : Type) : Type :=
| Normal (a : A) (w : World)
| Abrupt (e : Exn).
Arguments Normal {A} a w.
Arguments Abrupt {A} e.

(** [/(Q|&quot;)fostered(Q|&quot;)\s*:\s*true\b/], Q the double quote *)
Definition reFostered : regex :=
  (ch dq <|> lit "&quot;") +++ lit "fostered" +++ (ch dq <|> lit "&quot;") +++
  Star true (Chr isSpace) +++ ch ":" +++ Star true (Chr isSpace) +++
  lit "true" +++ WordB.

(** [/^\n?<\/[^>]+>\n?$/] *)
Definition reImplicitClose : regex :=
  Bol +++ opt (ch nl) +++ lit "</" +++ plus (noneof ">") +++ ch ">" +++
  opt (ch nl) +++ Eol.

Definition jsLength (s : string) : Z := Z.of_nat (String.length s).

(** Get diff substrings from offsets. *)
Definition formatDiff (oldWt newWt : string) (h : Heap) (offset : OffsetPair)
           (context : Z) : string :=
  let o0 := h (fst offset) in
  let o1 := h (snd offset) in
  l2s (s2l "----" ++ [nl] ++
       substring (s2l oldWt) (start o0 - context) (end_ o0 + context) ++ [nl] ++
       s2l "++++" ++ [nl] ++
       substring (s2l newWt) (start o1 - context) (end_ o1 + context)).

(** Lines 414-415: the two wikitext excerpts of an offset pair. *)
Definition excerpts (data : Data) (h : Heap) (offset : OffsetPair)
  : string * string :=
  let o0 := h (fst offset) in
  let o1 := h (snd offset) in
  (l2s (substring (s2l (oldWt data)) (start o0) (end_ o0)),
   l2s (substring (s2l (newWt data)) (start o1) (end_ o1))).

(** The two-stage promotion: what the result [r] of an offset pair is to
    be, given the HTML diff [diff] of its fragments and the spans in [h];
    the two excerpts are the substrings of the wikitexts over the spans. *)
Definition TwoStage (data : Data) (h : Heap) (diff : string) (r : DiffResult)
  : Prop :=
  let o0 := h (fst (offset r)) in
  let o1 := h (snd (offset r)) in
  let wt1 := l2s (substring (s2l (oldWt data)) (start o0) (end_ o0)) in
  let wt2 := l2s (substring (s2l (newWt data)) (start o1) (end_ o1)) in
  (type r = fail <->
   diff <> EmptyString /\ normalizeWikitext wt1 <> normalizeWikitext wt2) /\
  (type r = fail ->
   htmlDiff r = Some diff /\
   wtDiff r = formatDiff (oldWt data) (newWt data) h (offset r) 25) /\
  (type r <> fail ->
   type r = skip /\ htmlDiff r = None /\
   wtDiff r = formatDiff (oldWt data) (newWt data) h (offset r) 0).

(** The addresses of the spans of a list of offset pairs. *)
Definition spanAddrs (offsets : list OffsetPair) : list Addr :=
  flat_map (fun p => [fst p; snd p]) offsets.

Section CheckIfSignificant.

Variable decodedCommentLength : Node -> Z.
Variable skipped : Node -> list Node -> nat.

(** Collaborators outside the sources at hand: the DOM serializers and
    normalizers of the DOM utilities and the HTML differ.  They are taken
    as functions: each returns a string for every argument. *)
Variable outerHTML : Node -> string.
Variable normalizeOutBody : Node -> string.   (* DU.normalizeOut(body, true) *)
Variable normalizeOut : string -> string.     (* DU.normalizeOut(html) *)
Variable serializeNode : Node -> string.      (* smartQuote: false *)
Variable formatHTML : string -> string.
Variable diffHtml : string -> string -> string. (* Diff.htmlDiff(a, b, false, true, true) *)

Definition implicitlyClosed (newWt : string) (h : Heap) (offset : OffsetPair)
  : bool :=
  let o0 := h (fst offset) in
  let o1 := h (snd offset) in
  (start o0 =? end_ o0) &&
  test reImplicitClose (substr (s2l newWt) (start o1) (end_ o1 - start o1)).

(** Lines 387-395: the spans after the adjustment for an implicitly
    closed element, which is made in place on the old span. *)
Definition adjusted (data : Data) (h : Heap) (offset : OffsetPair) : Heap :=
  if implicitlyClosed (newWt data) h offset
  then
    (* An element was implicitly closed. Fudge the orig offset *)
    let o0 := h (fst offset) in
    update h (fst offset) (mkRange (start o0 - 1) (end_ o0))
  else h.

(** Lines 397-403 and 405-411: match one side and render the nodes. *)
Definition renderMatch (body : Node) (wt : string) (target : Range) (w : World)
  : Completion string :=
  let sourceLen := jsLength wt in
  let w1 := mkWorld (heap w)
              (calls w ++ [CallFindMatchingNodes body target sourceLen]) in
  match findMatchingNodes target sourceLen decodedCommentLength skipped body with
  | Throw e => Abrupt e
  | Ok res _ =>
      let out := match res with Some r => nodes r | None => [] end in
      let html := fold_left (fun acc n => (acc ++ serializeNode n)%string)
                    out EmptyString in
      Normal (formatHTML (normalizeOut html)) w1
  end.

(** Lines 382-435: the body of the full loop for one offset pair. *)
Definition classifyOffset (data : Data) (offset : OffsetPair) (w : World)
  : Completion DiffResult :=
  let h1 := adjusted data (heap w) offset in
  let w1 := mkWorld h1 (calls w) in
  match renderMatch (oldBody data) (oldWt data) (h1 (fst offset)) w1 with
  | Abrupt e => Abrupt e
  | Normal origHTML w2 =>
      match renderMatch (newBody data) (newWt data) (h1 (snd offset)) w2 with
      | Abrupt e => Abrupt e
      | Normal newHTML w3 =>
          (* compute wt diffs *)
          let wt1 := fst (excerpts data h1 offset) in
          let wt2 := snd (excerpts data h1 offset) in
          let diff := diffHtml origHTML newHTML in
          let w4 := mkWorld (heap w3) (calls w3 ++ [CallHtmlDiff origHTML newHTML]) in
          (* Normalize wts to check if we really have a semantic diff *)
          if (jsLength diff >? 0)
             && negb (String.eqb (normalizeWikitext wt1) (normalizeWikitext wt2))
          then
            Normal (mkDiffResult fail offset
                      (formatDiff (oldWt data) (newWt data) h1 offset 25)
                      (Some diff)) w4
          else
            Normal (mkDiffResult skip offset
                      (formatDiff (oldWt data) (newWt data) h1 offset 0)
                      None) w4
      end
  end.

(** Lines 381-437: the full loop. *)
Fixpoint fullDiffs (data : Data) (offsets : list OffsetPair) (w : World)
  : Completion (list DiffResult) :=
  match offsets with
  | [] => Normal [] w
  | offset :: more =>
      match classifyOffset data offset w with
      | Abrupt e => Abrupt e
      | Normal thisResult w' =>
          match fullDiffs data more w' with
          | Abrupt e => Abrupt e
          | Normal results w'' => Normal (thisResult :: results) w''
          end
      end
  end.

(** Line 360. *)
Definition fostered (body : Node) : bool :=
  test reFostered (s2l (outerHTML body)).

Definition checkIfSignificant (offsets : list OffsetPair) (data : Data)
           (w : World) : Completion (list DiffResult) :=
  (* Use the full tests for fostered content. *)
  if negb (fostered (oldBody data)) then
    (* Quick test for no semantic diffs *)
    let normalizedOld := normalizeOutBody (oldBody data) in
    let normalizedNew := normalizeOutBody (newBody data) in
    if String.eqb normalizedOld normalizedNew then
      Normal (map (fun offset =>
                     mkDiffResult skip offset
                       (formatDiff (oldWt data) (newWt data) (heap w) offset 0)
                       None) offsets) w
    else
      (* Now, proceed with full blown diffs *)
      fullDiffs data offsets w
  else fullDiffs data offsets w.

End CheckIfSignificant.

(** Line 110 of [xmlFormat]: the number after [character] is
    [result.offset[0].start], read when the report is written. *)
Definition reportedCharacter (h : Heap) (result : DiffResult) : Z :=
  start (h (fst (offset result))).

End Classifier.

(* ================================================================== *)
(** ** The report formatters                                            *)
(* ================================================================== *)

Module Report.
Import Js Wt Dom Matcher Classifier.
Local Open Scope Z_scope.
Local Open Scope re_scope.

(** A number that holds an integer, as [+] writes it into a string. *)
Definition numberToString (z : Z) : str :=
  s2l (DecimalString.NilZero.string_of_int (Z.to_int z)).

Definition countToString (n : nat) : str :=
  s2l (DecimalString.NilZero.string_of_uint (Nat.to_uint n)).

(** [String.prototype.repeat] *)
Fixpoint repeatStr (s : str) (n : nat) : str :=
  match n with
  | O => []
  | S k => s ++ repeatStr s k
  end.

(** A result as the formatters get it: [fetch] sets [selser] on the results
    of the second round; the others have no such member, which reads as
    false. *)
Record Reported : Type := mkReported {
  selser : bool;
  result : DiffResult
}.

(** An error value: the text [toString] gives and its [stack], if any. *)
Record ErrorValue : Type := mkError {
  errText : string;
  stack : option string
}.

(** [err.stack] where it is truthy: a stack that is there and is not the
    empty string. *)
Definition stackOf (e : ErrorValue) : option string :=
  match stack e with
  | Some EmptyString => None
  | Some st => Some st
  | None => None
  end.

(** The text of a member that may be [undefined], as [+] writes it. *)
Definition orUndefined (o : option string) : str :=
  match o with
  | Some v => s2l v
  | None => s2l "undefined"
  end.

(** [/&/g], [/</g], [/>/g] *)
Definition encodeXmlEntities (text : str) : str :=
  replaceAll (ch ">") (fun _ _ => s2l "&gt;")
    (replaceAll (ch "<") (fun _ _ => s2l "&lt;")
       (replaceAll (ch "&") (fun _ _ => s2l "&amp;") text)).

(** [encodeXmlEntities(str).replace(/Q/g, '&quot;')], Q the double quote *)
Definition encodeAttribute (text : str) : str :=
  replaceAll (ch dq) (fun _ _ => s2l "&quot;") (encodeXmlEntities text).

(** What the three replacements of [encodeXmlEntities] make of one code
    unit, and the four of [encodeAttribute]. *)
Definition entityOf (c : ascii) : str :=
  if Ascii.eqb "&" c then s2l "&amp;"
  else if Ascii.eqb "<" c then s2l "&lt;"
  else if Ascii.eqb ">" c then s2l "&gt;"
  else [c].

Definition attrEntityOf (c : ascii) : str :=
  if Ascii.eqb dq c then s2l "&quot;" else entityOf c.

Definition isFail (r : Reported) : bool :=
  match type (result r) with fail => true | skip => false end.

Definition testDivider : str := repeatStr (s2l "=") 70 ++ [nl].
Definition diffDivider : str := repeatStr (s2l "-") 70 ++ [nl].

Definition selserNote (r : Reported) : str :=
  if selser r then s2l " (selser)" else [].

(** Lines 34-50 of [plainFormat]: one turn of the loop, on [output] and
    the two counters. *)
Definition plainStep (acc : str * nat * nat) (r : Reported) : str * nat * nat :=
  let '(output, semanticDiffs, syntacticDiffs) := acc in
  let output := output ++ testDivider in
  match type (result r) with
  | fail =>
      (output ++ s2l "Semantic difference" ++ selserNote r ++ s2l ":" ++ [nl; nl] ++
       s2l (wtDiff (result r)) ++ [nl] ++
       diffDivider ++ s2l "HTML diff:" ++ [nl; nl] ++
       orUndefined (htmlDiff (result r)) ++ [nl],
       S semanticDiffs, syntacticDiffs)
  | skip =>
      (output ++ s2l "Syntactic difference" ++ selserNote r ++ s2l ":" ++ [nl; nl] ++
       s2l (wtDiff (result r)) ++ [nl],
       semanticDiffs, S syntacticDiffs)
  end.

(** Lines 51-60: the summary. *)
Definition plainSummary (semanticDiffs syntacticDiffs : nat) : str :=
  testDivider ++ testDivider ++ s2l "SUMMARY:" ++ [nl] ++
  s2l "Semantic differences : " ++ countToString semanticDiffs ++ [nl] ++
  s2l "Syntactic differences: " ++ countToString syntacticDiffs ++ [nl] ++
  diffDivider ++
  s2l "ALL differences      : " ++
  countToString (semanticDiffs + syntacticDiffs) ++ [nl] ++
  testDivider ++ testDivider.

(** [plainFormat(err, prefix, title, results, profile)]; the prefix, the
    title and the profile are not read. *)
Definition plainFormat (err : option ErrorValue) (results : list Reported)
  : str :=
  match err with
  | Some e =>
      s2l "Parser failure!" ++ [nl; nl] ++ diffDivider ++ s2l (errText e) ++
      match stackOf e with
      | Some st => [nl] ++ s2l "Stack trace: " ++ s2l st
      | None => []
      end
  | None =>
      let '(output, semanticDiffs, syntacticDiffs) :=
        fold_left plainStep results ([], O, O) in
      output ++ plainSummary semanticDiffs syntacticDiffs
  end.

(** The profile: its categories in the order of [Object.keys], each with
    its metrics in that order; the values are numbers. *)
Definition Profile : Type := list (string * list (string * Z)).

Definition lookup {A} (k : string) (o : list (string * A)) : option A :=
  match find (fun kv => String.eqb (fst kv) k) o with
  | Some kv => Some (snd kv)
  | None => None
  end.

Definition remove {A} (k : string) (o : list (string * A)) : list (string * A) :=
  filter (fun kv => negb (String.eqb (fst kv) k)) o.

(** Lines 138-140: [delete(profile.time.start)] when it is there and not 0. *)
Definition dropStart (profile : Profile) : Profile :=
  match lookup "time" profile with
  | Some time =>
      if truthy (lookup "start" time)
      then map (fun kv => if String.eqb (fst kv) "time"
                          then (fst kv, remove "start" (snd kv)) else kv) profile
      else profile
  | None => profile
  end.

Section XmlFormat.

(** [DU.encodeXml], a helper of the DOM utilities that is not in the
    sources at hand. *)
Variable encodeXml : string -> string.

(** Lines 79-85. *)
Definition outputTestSuite (article : str) (selser : bool) : str :=
  s2l "<testsuite name=" ++ [dq] ++ s2l "Roundtrip article " ++ article ++
  (if selser then s2l " (selser)" else []) ++ [dq] ++ s2l ">" ++ [nl].

(** Lines 109-130: one test case.  [encodeXmlEntities] of an [htmlDiff]
    that is [undefined] is a [TypeError], here [None]. *)
Definition testCase (article : str) (h : Heap) (r : Reported) : option str :=
  let head :=
    s2l "<testcase name=" ++ [dq] ++ article ++ s2l " character " ++
    numberToString (reportedCharacter h (result r)) ++ [dq] ++ s2l ">" ++ [nl] in
  match type (result r) with
  | fail =>
      match htmlDiff (result r) with
      | Some d =>
          Some (head ++
                s2l "<failure type=" ++ [dq] ++ s2l "significantHtmlDiff" ++ [dq] ++
                s2l ">" ++ [nl] ++
                s2l "<diff class=" ++ [dq] ++ s2l "wt" ++ [dq] ++ s2l ">" ++ [nl] ++
                encodeXmlEntities (s2l (wtDiff (result r))) ++
                [nl] ++ s2l "</diff>" ++ [nl] ++
                s2l "<diff class=" ++ [dq] ++ s2l "html" ++ [dq] ++ s2l ">" ++ [nl] ++
                encodeXmlEntities (s2l d) ++
                [nl] ++ s2l "</diff>" ++ [nl] ++
                s2l "</failure>" ++ [nl] ++
                s2l "</testcase>" ++ [nl])
      | None => None
      end
  | skip =>
      Some (head ++
            s2l "<skipped type=" ++ [dq] ++ s2l "insignificantWikitextDiff" ++ [dq] ++
            s2l ">" ++ [nl] ++
            encodeXmlEntities (s2l (wtDiff (result r))) ++
            [nl] ++ s2l "</skipped>" ++ [nl] ++
            s2l "</testcase>" ++ [nl])
  end.

(** Lines 98-131: the loop over the results, from [currentSelser] on. *)
Fixpoint testCases (article : str) (h : Heap) (currentSelser : bool)
         (results : list Reported) : option str :=
  match results with
  | [] => Some []
  | r :: more =>
      (* When going from normal to selser results, switch to a new
         test suite. *)
      let switch :=
        if Bool.eqb currentSelser (selser r) then []
        else s2l "</testsuite>" ++ [nl] ++ outputTestSuite article (selser r) in
      match testCase article h r with
      | None => None
      | Some tc =>
          match testCases article h (selser r) more with
          | None => None
          | Some rest => Some (switch ++ tc ++ rest)
          end
      end
  end.

(** Lines 135-152: the profiling data. *)
Definition perfStats (profile : option Profile) : str :=
  match profile with
  | None => []
  | Some pr =>
      s2l "<perfstats>" ++ [nl] ++
      flat_map (fun cat =>
        flat_map (fun metric =>
          s2l "<perfstat type=" ++ [dq] ++ s2l (encodeXml (fst cat)) ++ s2l ":" ++
          s2l (encodeXml (fst metric)) ++ [dq] ++ s2l ">" ++
          s2l (encodeXml (l2s (numberToString (snd metric)))) ++
          s2l "</perfstat>" ++ [nl]) (snd cat)) (dropStart pr) ++
      s2l "</perfstats>" ++ [nl]
  end.

(** [xmlFormat(err, prefix, title, results, profile)]; [h] holds the spans
    that the results point to. *)
Definition xmlFormat (err : option ErrorValue) (prefix title : string)
           (results : list Reported) (profile : option Profile) (h : Heap)
  : option str :=
  let article := encodeAttribute (s2l prefix ++ s2l ":" ++ s2l title) in
  let body :=
    match err with
    | Some e =>
        Some (outputTestSuite article false ++
              s2l "<testcase name=" ++ [dq] ++ s2l "entire article" ++ [dq] ++ s2l ">" ++
              s2l "<error type=" ++ [dq] ++ s2l "parserFailedToFinish" ++ [dq] ++ s2l ">" ++
              encodeXmlEntities
                (s2l (match stackOf e with Some st => st | None => errText e end)) ++
              s2l "</error></testcase>")
    | None =>
        match results with
        | [] => Some (outputTestSuite article false)
        | r0 :: _ =>
            match testCases article h (selser r0) results with
            | Some cases => Some (outputTestSuite article (selser r0) ++ cases)
            | None => None
            end
        end
    end in
  match body with
  | Some b =>
      Some (s2l "<testsuites>" ++ [nl] ++ b ++ s2l "</testsuite>" ++ [nl] ++
            perfStats profile ++ s2l "</testsuites>")
  | None => None
  end.

End XmlFormat.

End Report.

(* ================================================================== *)
(** ** The texts and requests of a round trip                           *)
(* ================================================================== *)

Module Pipeline.
Import Js Wt Dom Matcher Classifier Report.
Local Open Scope Z_scope.
Local Open Scope re_scope.

Definition selserComment : str := s2l "<!--rtSelserEditTestComment-->".

(** [/<!--rtSelserEditTestComment-->\n*$/] *)
Definition reSelserComment : regex :=
  litl selserComment +++ Star true (ch nl) +++ Eol.

(** Line 625 of [fetch]: remove the selser trigger comment. *)
Definition stripSelserComment (out : str) : str :=
  replaceFirst reSelserComment (fun _ _ => []) out.

(** [/\n(?=\n)/g] *)
Definition reBlankLine : regex := ch nl +++ Look true (ch nl).

(** Lines 629-630 of [fetch]: a blank after every newline that another
    newline follows. *)
Definition padBlankLines (wt : str) : str :=
  replaceAll reBlankLine (fun _ _ => [nl; sp]) wt.

(** Predicates on a text: it starts with [c]; no two [c] in a row. *)
Definition headIs (c : ascii) (s : str) : bool :=
  match s with
  | a :: _ => Ascii.eqb c a
  | [] => false
  end.

Fixpoint noPair (c : ascii) (s : str) : bool :=
  match s with
  | a :: t => negb (Ascii.eqb c a && headIs c t) && noPair c t
  | [] => true
  end.

(** Lines 632-639 of [fetch]: the results of the second round are marked
    [selser] and put after those of the first. *)
Definition mergeResults (diffs selserDiffs : list DiffResult) : list Reported :=
  map (mkReported false) diffs ++ map (mkReported true) selserDiffs.

(** The members of [options] that [parsoidPost] reads for the URI. *)
Record PostOptions : Type := mkPostOptions {
  uri : string;
  domain : string;
  title : string;
  html2wt : bool;
  oldid : Z
}.

(** [/\/$/] *)
Definition reTrailingSlash : regex := ch "/" +++ Eol.

Section ParsoidPost.

(** The built-in [encodeURIComponent]. *)
Variable encodeURIComponent : string -> string.

(** Lines 441-461 of [parsoidPost]: the URI of the request. *)
Definition requestUri (options : PostOptions) : str :=
  let title := s2l (encodeURIComponent (title options)) in
  let uri0 := s2l (uri options) in
  (* make sure the Parsoid URI ends on / *)
  let uri1 := if negb (test reTrailingSlash uri0) then uri0 ++ s2l "/" else uri0 in
  let uri2 := uri1 ++ s2l "v2/" ++ s2l (domain options) ++ s2l "/" in
  if html2wt options
  then uri2 ++ s2l "wt/" ++ title ++ s2l "/" ++ numberToString (oldid options)
  else uri2 ++ s2l "pagebundle/" ++ title.

End ParsoidPost.

(** [htmlSpecialChars] of the API utilities: [/&/g], [/</g], [/Q/g] and
    [/'/g], Q the double quote. *)
Definition htmlSpecialChars (text : str) : str :=
  replaceAll (ch "'") (fun _ _ => s2l "&#039;")
    (replaceAll (ch dq) (fun _ _ => s2l "&quot;")
       (replaceAll (ch "<") (fun _ _ => s2l "&lt;")
          (replaceAll (ch "&") (fun _ _ => s2l "&amp;") text))).

End Pipeline.

(* ================================================================== *)
(** ** Predicates for the further properties                            *)
(* ================================================================== *)

Module Further.
Import Js Dom Matcher Classifier.
Local Open Scope Z_scope.

(** [Within n root]: the node [n] is [root] or a node below it. *)
Inductive Within (n : Node) : Node -> Prop :=
| WithinSelf : Within n n
| WithinChild (a : Attrs) (cs : list Node) (c : Node) :
    In c cs -> Within n c -> Within n (Elt a cs).

(** The spans [h'] come from the spans [h] by the implicit-close
    adjustment alone: no end has moved, and a start has stayed or, on a
    span that was empty, gone down by one. *)
Definition Adjusted (h h' : Heap) : Prop :=
  forall a,
    end_ (h' a) = end_ (h a) /\
    (start (h' a) = start (h a) \/
     (start (h a) = end_ (h a) /\ start (h' a) = start (h a) - 1)).

Definition isHtmlDiffCall (c : Call) : bool :=
  match c with CallHtmlDiff _ _ => true | _ => false end.

(** The calls of [n] turns of the full loop: in each turn
    [findMatchingNodes] on the old body, [findMatchingNodes] on the new
    body and then the HTML differ. *)
Fixpoint CallTriples (data : Data) (n : nat) (cs : list Call) : Prop :=
  match n with
  | O => cs = []
  | S k =>
      exists t1 t2 a b rest,
        cs = CallFindMatchingNodes (oldBody data) t1 (jsLength (oldWt data))
             :: CallFindMatchingNodes (newBody data) t2 (jsLength (newWt data))
             :: CallHtmlDiff a b :: rest /\
        CallTriples data k rest
  end.

End Further.

(* ================================================================== *)
(** ** Concrete documents used in the examples                          *)
(* ================================================================== *)

Module Examples.
Import Js Dom Matcher Classifier.
Local Open Scope Z_scope.

(** A block that consists of its first node alone: nothing to pass over. *)
Definition loneBlock (_ : Node) (_ : list Node) : nat := O.

(** A block that takes in all the siblings that follow. *)
Definition wholeRest (_ : Node) (siblings : list Node) : nat := length siblings.

(** A comment counts for its text and the seven code units of the two
    comment marks. *)
Definition commentLen (n : Node) : Z :=
  match n with
  | Comment v => Z.of_nat (String.length v) + 7
  | _ => 0
  end.

Definition dpOf (s e : option Z) : DpAttr := DpJson (mkDp (Some (s, e))).

Definition elt (name : string) (s e : option Z) (cs : list Node) : Node :=
  Elt (mkAttrs name (dpOf s e) EmptyString) cs.

Definition para1020 : Node := elt "p" (Some 10) (Some 20) [Text "0123456789"].

(** An empty span at offset 5, as an implicitly closed element has. *)
Definition empty55 : Node := elt "b" (Some 5) (Some 5) [].

(** An empty span at offset 0. *)
Definition empty00 : Node := elt "b" (Some 0) (Some 0) [].

(** A body whose dsr entries are both [null], and one whose start is. *)
Definition bodyNoBounds : Node := elt "body" None None [Text "0123456789"].
Definition bodyNoStart : Node := elt "body" None (Some 8) [Text "01234567"].

(** A transclusion over [0,10): a text and two elements that carry
    spans, in a body over the same range. *)
Definition partA : Node := elt "i" (Some 2) (Some 4) [Text "cd"].
Definition partB : Node := elt "b" (Some 4) (Some 10) [Text "efghij"].
Definition transclusion : Node :=
  Elt (mkAttrs "span" (dpOf (Some 0) (Some 10)) "mw:Transclusion")
      [Text "ab"; partA; partB].
Definition bodyWithTransclusion : Node :=
  elt "body" (Some 0) (Some 10) [transclusion].

(** A block of two nodes: the first and the sibling after it. *)
Definition oneMore (_ : Node) (siblings : list Node) : nat :=
  Nat.min 1 (length siblings).

(** The second node of the block of [transclusion], and a paragraph after
    the block; both carry the span [20,30). *)
Definition blockPart : Node := elt "b" (Some 20) (Some 30) [Text "0123456789"].
Definition afterBlock : Node := elt "p" (Some 20) (Some 30) [Text "0123456789"].

(** An element whose [data-parsoid] text is not JSON, around a child
    that opens the target range [2,6) without closing it. *)
Definition opener : Node := elt "i" (Some 2) (Some 4) [Text "ab"].
Definition badMeta : Node := Elt (mkAttrs "span" DpInvalid EmptyString) [opener].
Definition bodyBadMeta : Node :=
  elt "body" (Some 0) (Some 6) [Text "xx"; badMeta; Text "cd"].
Definition bodyPlain : Node :=
  elt "body" (Some 0) (Some 6) [Text "xxabyd"].

(** The same with the text [null] for [data-parsoid]. *)
Definition nullMeta : Node := Elt (mkAttrs "span" DpNull EmptyString) [opener].
Definition bodyNullMeta : Node :=
  elt "body" (Some 0) (Some 6) [Text "xx"; nullMeta; Text "cd"].

(** Stand-ins for the collaborators, to run the classifier on examples: a
    plain serializer, and a differ that reports two texts when they are
    not the same. *)
Fixpoint render (n : Node) : string :=
  match n with
  | Elt a cs =>
      ("<" ++ nodeName a ++ ">" ++
       fold_right (fun c acc => render c ++ acc) EmptyString cs ++
       "</" ++ nodeName a ++ ">")%string
  | Text v => v
  | Comment v => ("<!--" ++ v ++ "-->")%string
  end.

Definition noMarkup (_ : Node) : string := EmptyString.
Definition same (s : string) : string := s.
Definition textDiff (a b : string) : string :=
  if String.eqb a b then EmptyString else ("-" ++ a ++ "+" ++ b)%string.

Definition classify :=
  checkIfSignificant commentLen loneBlock noMarkup render same render same
    textDiff.

(** Spans by address: 0 is [8,8), 1 is [8,14), 2 and 3 are [2,6), the
    others [0,3). *)
Definition spans : Heap :=
  fun a => match a with
           | 0%nat => mkRange 8 8
           | 1%nat => mkRange 8 14
           | 2%nat | 3%nat => mkRange 2 6
           | _ => mkRange 0 3
           end.
Definition world0 : World := mkWorld spans [].

Definition divOpen : Node := elt "div" (Some 0) (Some 8) [Text "foo"].
Definition bodyDiv : Node := elt "body" (Some 0) (Some 8) [divOpen].
Definition divClosed : Node := elt "div" (Some 0) (Some 14) [Text "foo"].
Definition bodyDivClosed : Node := elt "body" (Some 0) (Some 14) [divClosed].
Definition bodyDivBold : Node :=
  elt "body" (Some 0) (Some 14) [elt "div" (Some 0) (Some 14) [elt "b" None None [Text "foo"]]].

(** [<div>foo] comes back as [<div>foo</div>]: the same document. *)
Definition implicitClose : Data :=
  mkData "<div>foo" "<div>foo</div>" bodyDiv bodyDiv.
(** The same wikitext, against a document that differs. *)
Definition implicitCloseChanged : Data :=
  mkData "<div>foo" "<div>foo</div>" bodyDiv bodyDivBold.

(** [a b] comes back as [a c]. *)
Definition changedWord : Data :=
  mkData "a b" "a c"
    (elt "body" (Some 0) (Some 3) [elt "p" (Some 0) (Some 3) [Text "a b"]])
    (elt "body" (Some 0) (Some 3) [elt "p" (Some 0) (Some 3) [Text "a c"]]).

Definition badMetaData : Data :=
  mkData "xxabcd" "xxabyd" bodyBadMeta bodyPlain.
Definition nullMetaData : Data :=
  mkData "xxabcd" "xxabyd" bodyNullMeta bodyPlain.

End Examples.

(* ================================================================== *)
(** ** Concrete results and requests used in the examples               *)
(* ================================================================== *)

Module MoreExamples.
Import Js Dom Matcher Classifier Report Pipeline Further Examples.
Local Open Scope string_scope.

Definition skipResult : DiffResult :=
  mkDiffResult skip (0, 1)%nat "----" None.
Definition failResult : DiffResult :=
  mkDiffResult fail (4, 5)%nat "----" (Some "-a+b").

Definition localParsoid : string := "http://localhost:8000".

End MoreExamples.

(* ================================================================== *)
(** ** Properties of the node matcher                                   *)
(* ================================================================== *)

Import Js Dom Matcher.
Local Open Scope Z_scope.
Unset Implicit Arguments.

Section MatcherProperties.

Variable targetRange : Range.
Variable sourceLen : Z.
Variable decodedCommentLength : Node -> Z.
Variable skipped : Node -> list Node -> nat.

Local Abbreviation walk := (walkDOM targetRange sourceLen decodedCommentLength skipped).

Lemma disjoint_iff (span : Z * Z) :
  disjoint targetRange span = true <->
  (end_ targetRange <= fst span \/ start targetRange >= snd span).
Proof.
  unfold disjoint. rewrite orb_true_iff, Z.ltb_lt, Z.gtb_lt. lia.
Qed.

Lemma walk_checkSpan_return (element : Node) (res : option MatchResult)
      (st st' : MatchState) :
  checkSpan targetRange sourceLen element (getJSONAttribute element) st
    = Ok (Return res) st' ->
  walk element st = Ok res st'.
Proof.
  intros H. destruct element; simpl; unfold bind; simpl in H; rewrite H;
    reflexivity.
Qed.

Lemma knownSpan_defaults (d0 d1 : option Z) :
  knownSpan sourceLen (d0, d1)
  = (match d0 with Some z => z | None => 0 end,
     match d1 with
     | Some z => if z =? 0 then sourceLen - 1 else z
     | None => sourceLen - 1
     end).
Proof.
  unfold knownSpan, orElse, truthy. cbn [fst snd]. f_equal.
  - destruct d0 as [z|]; [|reflexivity].
    destruct (z =? 0) eqn:E; [|reflexivity].
    apply Z.eqb_eq in E. cbn [negb]. congruence.
  - destruct d1 as [z|]; [|reflexivity].
    destruct (z =? 0); reflexivity.
Qed.

(** C6 (pruning), as the code has it: an end of 0 is read as unknown.
    An element whose dsr gives the numbers [s] and [e], with [e] other
    than 0, and a target range with [target.end <= s] or
    [target.start >= e]: [walkDOM] returns [null] for it, in whatever
    state the matcher is and whatever the children of the element are, and
    leaves the shared variables as they were. *)
Theorem prune_disjoint_span :
  forall (a : Attrs) (cs : list Node) (dp : DataParsoid)
         (s e : Z) (st : MatchState),
    dataParsoid a = DpJson dp ->
    dsr dp = Some (Some s, Some e) ->
    e <> 0 ->
    (end_ targetRange <= s \/ start targetRange >= e) ->
    walk (Elt a cs) st = Ok None st.
Proof.
  intros a cs dp s e st Hdp Hdsr He Hdisj.
  apply walk_checkSpan_return.
  unfold checkSpan, getJSONAttribute. rewrite Hdp, Hdsr, knownSpan_defaults.
  apply Z.eqb_neq in He. rewrite He. cbn [fst snd].
  replace (disjoint targetRange (s, e)) with true; [reflexivity|].
  symmetry. apply disjoint_iff. exact Hdisj.
Qed.

(** C5 (exact match), as the code has it: the span must not be empty.
    An element whose dsr start is a number, whose span as the matcher
    computes it equals the target range, with [start < end], met while
    the matcher is not waiting for an end match: [walkDOM] returns
    [{done: true, nodes: [element]}], whatever the children are, and
    leaves the shared variables as they were. *)
Theorem exact_match_returns_node :
  forall (a : Attrs) (cs : list Node) (dp : DataParsoid)
         (s : Z) (d1 : option Z) (st : MatchState),
    dataParsoid a = DpJson dp ->
    dsr dp = Some (Some s, d1) ->
    knownSpan sourceLen (Some s, d1) = (start targetRange, end_ targetRange) ->
    start targetRange < end_ targetRange ->
    waitingForEndMatch st = false ->
    walk (Elt a cs) st = Ok (Some (mkResult true [Elt a cs])) st.
Proof.
  intros a cs dp s d1 st Hdp Hdsr Hspan Hlt Hwait.
  apply walk_checkSpan_return.
  unfold checkSpan, getJSONAttribute. rewrite Hdp, Hdsr, Hspan. cbn [fst snd].
  assert (Hd : disjoint targetRange (start targetRange, end_ targetRange) = false).
  { apply not_true_is_false. rewrite disjoint_iff. cbn [fst snd]. lia. }
  rewrite Hd. unfold bind, get. rewrite Hwait.
  rewrite !Z.eqb_refl. reflexivity.
Qed.

(** C7 (defaults for unknown bounds), as the code has it: the end of an
    element whose dsr end is [null] is [sourceLen - 1], not [sourceLen].
    Where the dsr start is [null] the matcher takes 0, where the dsr end is
    [null] (or 0) it takes [sourceLen - 1], and the element is pruned
    exactly when the target range ends at or before that start or starts
    at or after that end; so an element whose dsr entries are both [null]
    is not pruned for a target range that ends after offset 0 and starts
    before [sourceLen - 1].  (The equivalence holds of every dsr, with the
    numbers it gives where they are not [null].) *)
Theorem unknown_bounds_default :
  forall (element : Node) (d0 d1 : option Z) (st : MatchState),
    dsr (getJSONAttribute element) = Some (d0, d1) ->
    let s := match d0 with Some z => z | None => 0 end in
    let e := match d1 with
             | Some z => if z =? 0 then sourceLen - 1 else z
             | None => sourceLen - 1
             end in
    exists f st',
      checkSpan targetRange sourceLen element (getJSONAttribute element) st
        = Ok f st' /\
      (f = Return None <->
       (end_ targetRange <= s \/ start targetRange >= e)) /\
      (d0 = None -> d1 = None ->
       1 <= end_ targetRange -> start targetRange <= sourceLen - 2 ->
       f <> Return None).
Proof.
  intros element d0 d1 st Hdsr s e.
  assert (Hboth : forall f : Flow (option MatchResult) unit,
             (f = Return None <->
              (end_ targetRange <= s \/ start targetRange >= e)) ->
             d0 = None -> d1 = None ->
             1 <= end_ targetRange -> start targetRange <= sourceLen - 2 ->
             f <> Return None).
  { intros f Hiff H0 H1 Hend Hstart Hf. apply Hiff in Hf.
    subst s e. rewrite H0, H1 in Hf. lia. }
  unfold checkSpan. rewrite Hdsr, knownSpan_defaults. fold s e. cbn [fst snd].
  destruct (disjoint targetRange (s, e)) eqn:Hd.
  - pose proof (proj1 (disjoint_iff (s, e)) Hd) as Hp. cbn [fst snd] in Hp.
    eexists _, _. split; [reflexivity|].
    assert (Hiff : @Return (option MatchResult) unit None = Return None <->
                   (end_ targetRange <= s \/ start targetRange >= e))
      by (split; auto).
    split; [exact Hiff|]. apply Hboth. exact Hiff.
  - assert (Hn : ~ (end_ targetRange <= s \/ start targetRange >= e)).
    { intros Hp. apply (proj2 (disjoint_iff (s, e))) in Hp. congruence. }
    assert (Hiff : forall f : Flow (option MatchResult) unit,
               f <> Return None ->
               (f = Return None <->
                (end_ targetRange <= s \/ start targetRange >= e)))
      by (intros f Hf; split; [intros H; contradiction|intros H; contradiction]).
    unfold bind, get, ret, setWaitingForEndMatch.
    repeat match goal with
           | |- context [if ?b then _ else _] => destruct b
           end;
      eexists _, _; (split; [reflexivity|]);
      (split; [apply Hiff; discriminate|apply Hboth; apply Hiff; discriminate]).
Qed.

Local Abbreviation scan := (scanChildren targetRange decodedCommentLength skipped).

Lemma walkDOM_unfold (element : Node) (st : MatchState) :
  walk element st =
  match checkSpan targetRange sourceLen element (getJSONAttribute element) st with
  | Throw e => Throw e
  | Ok (Return res) st1 => Ok res st1
  | Ok (Next _) st1 =>
      match scanChildren targetRange decodedCommentLength skipped walk
              (getJSONAttribute element) (childNodes element) 0 [] [] st1 with
      | Throw e => Throw e
      | Ok (Return res) st2 => Ok res st2
      | Ok (Next elements) st2 => finish element elements st2
      end
  end.
Proof.
  destruct element as [a cs|v|v]; [|reflexivity|reflexivity].
  simpl. unfold bind.
  destruct (checkSpan _ _ _ _ st) as [[r|[]] st1|e]; try reflexivity.
  destruct (scanChildren _ _ _ _ _ _ _ _ _ st1) as [[r|els] st2|e]; reflexivity.
Qed.

Lemma checkSpan_nodes (element : Node) (attribs : DataParsoid)
      (st st' : MatchState) (r : MatchResult) :
  checkSpan targetRange sourceLen element attribs st = Ok (Return (Some r)) st' ->
  nodes r = [element].
Proof.
  unfold checkSpan.
  destruct (dsr attribs) as [[d0 d1]|]; [|discriminate].
  destruct (disjoint _ _); [discriminate|].
  unfold bind, get, ret, setWaitingForEndMatch.
  repeat match goal with
         | |- context [if ?b then _ else _] => destruct b
         end; intros H; inversion H; reflexivity.
Qed.

Lemma finish_nodes (element : Node) (elements : list Node)
      (st st' : MatchState) (r : MatchResult) :
  finish element elements st = Ok (Some r) st' ->
  nodes r <> [].
Proof.
  unfold finish. destruct elements as [|x xs]; [discriminate|].
  cbn [length Nat.eqb]. unfold bind, get, ret.
  destruct (_ <? _)%nat; intros H; inversion H; discriminate.
Qed.

Lemma Valid_children (a : Attrs) (cs : list Node) :
  Valid (Elt a cs) -> Forall Valid cs.
Proof.
  unfold Valid. simpl. rewrite andb_true_iff, forallb_forall, Forall_forall.
  tauto.
Qed.

Lemma checkSpan_total (element : Node) (attribs : DataParsoid) (st : MatchState) :
  exists f st',
    checkSpan targetRange sourceLen element attribs st = Ok f st' /\
    (forall r, f = Return (Some r) -> nodes r = [element]).
Proof.
  unfold checkSpan.
  destruct (dsr attribs) as [[d0 d1]|];
    [|eexists _, _; split; [reflexivity|discriminate]].
  unfold bind, get, ret, setWaitingForEndMatch.
  repeat match goal with
         | |- context [if ?b then _ else _] => destruct b
         end;
    eexists _, _; (split; [reflexivity|]); intros r H; inversion H; reflexivity.
Qed.

Lemma popPreceding_valid (stack : list Node) :
  Forall Valid stack ->
  forall diff, Forall Valid (popPreceding decodedCommentLength stack diff).
Proof.
  induction 1 as [|n stack Hn Hs IH]; intros diff; simpl; [constructor|].
  destruct (diff >? 0); [|constructor].
  destruct (_ >? diff); [constructor|]. constructor; auto.
Qed.

Lemma checkSingleChild_total (mc : list Node) (b : bool) (st : MatchState) :
  Forall Valid mc ->
  exists b' st', checkSingleChild targetRange mc b st = Ok b' st'.
Proof.
  intros Hmc. unfold checkSingleChild.
  destruct mc as [|[a cs|v|v] [|n2 mc]]; try (eexists _, _; reflexivity).
  inversion Hmc as [|? ? Hv _]; subst. unfold Valid in Hv. simpl in Hv.
  destruct (dataParsoid a) as [| | |dp];
    [eexists _, _; reflexivity|discriminate|discriminate|].
  destruct (dsr dp) as [[d0 d1]|]; [|eexists _, _; reflexivity].
  destruct (truthy d1); [|eexists _, _; reflexivity].
  destruct (_ >=? _); eexists _, _; reflexivity.
Qed.

Section Scan.

Variable w : Node -> M (option MatchResult).
Variable attribs : DataParsoid.

Lemma visitElement_nodes (c : Node) (els prec : list Node)
      (st st' : MatchState) (r : MatchResult) :
  NonEmptyAt w c ->
  visitElement targetRange decodedCommentLength w attribs c els prec st
    = Ok (Return (Some r)) st' ->
  nodes r <> [].
Proof.
  intros Hc. unfold visitElement, bind.
  destruct (w c st) as [[r0|] st0|e] eqn:Hw; [| |discriminate].
  - apply Hc in Hw. unfold get.
    match goal with
    | |- context [match ?x with Ok _ _ => _ | Throw _ => _ end] =>
        destruct x as [mc st1|e1] eqn:Hmc
    end; [|discriminate].
    assert (Hne : mc <> []).
    { revert Hmc. destruct (dsr attribs) as [[[d0|] d1]|]; unfold ret, bind, setCurrentOffset.
      - destruct (negb _); intros H; inversion H; subst; auto.
        intros Happ. apply app_eq_nil in Happ. tauto.
      - intros H; inversion H; subst; auto.
      - intros H; inversion H; subst; auto. }
    destruct (checkSingleChild targetRange mc (done r0) st1) as [b st2|e2]; [|discriminate].
    destruct b; unfold ret; intros H; inversion H; subst; exact Hne.
  - unfold get, ret. destruct (_ || _); discriminate.
Qed.

Lemma scanChildren_nodes (cs : list Node) :
  Forall (NonEmptyAt w) cs ->
  forall skip els prec st st' r,
    scanChildren targetRange decodedCommentLength skipped w attribs cs skip els prec st
      = Ok (Return (Some r)) st' ->
    nodes r <> [].
Proof.
  induction 1 as [|c cs Hc Hcs IH]; intros skip els prec st st' r.
  - discriminate.
  - destruct skip as [|k]; simpl.
    + unfold bind at 1. unfold get. unfold bind at 1. unfold setWasWaiting at 1.
      unfold bind at 1.
      destruct (isElt c).
      * destruct (visitElement _ _ _ _ _ _ _ _) as [[res|[els' prec']] st1|e] eqn:Hv;
          [| |discriminate].
        -- unfold ret. intros H; inversion H; subst.
           eapply visitElement_nodes; eauto.
        -- unfold bind, get.
           destruct (_ && _); [discriminate|]. apply IH.
      * unfold bind at 1.
        destruct (visitLeaf _ _ _ _ _ _) as [[els' prec'] st1|e]; [|discriminate].
        unfold ret at 1. unfold bind, get.
        destruct (_ && _); [discriminate|]. apply IH.
    + apply IH.
Qed.

Lemma visitElement_total (c : Node) (els prec : list Node) (st : MatchState) :
  TotalAt w c -> Valid c -> Forall Valid els -> Forall Valid prec ->
  exists f st',
    visitElement targetRange decodedCommentLength w attribs c els prec st = Ok f st' /\
    match f with
    | Return res => ValidResult res
    | Next (els', prec') => Forall Valid els' /\ Forall Valid prec'
    end.
Proof.
  intros Hw Hc Hels Hprec. unfold visitElement, bind.
  destruct (Hw st) as (res & st0 & Hres & Hvalid). rewrite Hres.
  destruct res as [r0|].
  - unfold get. simpl in Hvalid.
    assert (Hmc : exists mc st1,
               (match dsr attribs with
                | Some (Some d0, _) =>
                    if negb (truthy (currentOffset st0)) then
                      bind (setCurrentOffset (Some d0)) (fun _ =>
                        ret (rev (popPreceding decodedCommentLength (rev prec)
                                    (d0 - start targetRange)) ++ nodes r0))
                    else ret (nodes r0)
                | _ => ret (nodes r0)
                end) st0 = Ok mc st1 /\ Forall Valid mc).
    { destruct (dsr attribs) as [[[d0|] d1]|];
        try (eexists _, _; split; [reflexivity|assumption]).
      destruct (negb _); [|eexists _, _; split; [reflexivity|assumption]].
      eexists _, _; split; [reflexivity|].
      apply Forall_app; split; [|assumption].
      apply Forall_rev. apply popPreceding_valid. apply Forall_rev. assumption. }
    destruct Hmc as (mc & st1 & Hmc & Hvmc). unfold bind in Hmc. rewrite Hmc.
    destruct (checkSingleChild_total mc (done r0) st1 Hvmc) as (b & st2 & Hb).
    rewrite Hb. destruct b; eexists _, _; (split; [reflexivity|]); simpl; auto.
  - unfold get, ret. destruct (_ || _); eexists _, _; (split; [reflexivity|]);
      simpl; split; auto. apply Forall_app; split; auto.
Qed.

Lemma visitLeaf_total (c : Node) (els prec : list Node) (st : MatchState) :
  Valid c -> Forall Valid els -> Forall Valid prec ->
  exists els' prec' st',
    visitLeaf targetRange decodedCommentLength c els prec st = Ok (els', prec') st' /\
    Forall Valid els' /\ Forall Valid prec'.
Proof.
  intros Hc Hels Hprec.
  unfold visitLeaf, bind, get, ret, setCurrentOffset, setWaitingForEndMatch.
  destruct (currentOffset st) as [off|] eqn:Hoff;
    [destruct (truthy (Some off) && (off <? end_ targetRange));
       [destruct (off + nodeLen decodedCommentLength c >=? end_ targetRange)|]|];
    cbn [wasWaiting waitingForEndMatch currentOffset];
    repeat match goal with
           | |- context [if ?b then _ else _] => destruct b
           end;
    eexists _, _, _; (split; [reflexivity|]); split; auto;
    apply Forall_app; split; auto.
Qed.

Lemma scanChildren_total (cs : list Node) :
  Forall (TotalAt w) cs -> Forall Valid cs ->
  forall skip els prec st,
    Forall Valid els -> Forall Valid prec ->
    exists f st',
      scanChildren targetRange decodedCommentLength skipped w attribs cs skip els prec st
        = Ok f st' /\
      match f with
      | Return res => ValidResult res
      | Next els' => Forall Valid els'
      end.
Proof.
  induction 1 as [|c cs Hc Hcs IH]; intros Hv skip els prec st Hels Hprec.
  - eexists _, _; split; [reflexivity|assumption].
  - inversion Hv as [|? ? Hvc Hvcs]; subst.
    destruct skip as [|k]; simpl; [|apply IH; assumption].
    unfold bind at 1. unfold get. unfold bind at 1. unfold setWasWaiting at 1.
    unfold bind at 1.
    destruct (isElt c).
    + destruct (visitElement_total c els prec
                  (mkState (currentOffset st) (waitingForEndMatch st) (waitingForEndMatch st))
                  Hc Hvc Hels Hprec) as (f & st1 & Hf & Hgood).
      rewrite Hf. destruct f as [res|[els' prec']].
      * eexists _, _; split; [reflexivity|assumption].
      * destruct Hgood as [He Hp]. unfold bind, get.
        destruct (_ && _); [eexists _, _; split; [reflexivity|assumption]|].
        apply IH; assumption.
    + unfold bind at 1.
      destruct (visitLeaf_total c els prec
                  (mkState (currentOffset st) (waitingForEndMatch st) (waitingForEndMatch st))
                  Hvc Hels Hprec) as (els' & prec' & st1 & Hf & He & Hp).
      rewrite Hf. unfold ret at 1. unfold bind, get.
      destruct (_ && _); [eexists _, _; split; [reflexivity|assumption]|].
      apply IH; assumption.
Qed.

End Scan.

(** C9 (a result has nodes).  Whenever [walkDOM], in whatever state of
    the shared variables, returns a result that is not [null], the [nodes]
    of the result are not empty; [findMatchingNodes] is the call on the
    root in the initial state. *)
Theorem match_result_nonempty (element : Node) :
  forall (st : MatchState) (r : MatchResult) (st' : MatchState),
    walk element st = Ok (Some r) st' -> nodes r <> [].
Proof.
  induction element as [a cs IH|v|v] using Node_ind'; intros st r st';
    rewrite walkDOM_unfold.
  - destruct (checkSpan _ _ _ _ st) as [[res|[]] st1|e] eqn:Hc; [| |discriminate].
    + intros H; inversion H; subst. apply checkSpan_nodes in Hc.
      rewrite Hc. discriminate.
    + cbn [childNodes].
      destruct (scanChildren _ _ _ _ _ _ _ _ _ st1) as [[res|els] st2|e] eqn:Hs;
        [| |discriminate].
      * intros H; inversion H; subst.
        eapply scanChildren_nodes; [|exact Hs]. exact IH.
      * apply finish_nodes.
  - destruct (checkSpan _ _ _ _ st) as [[res|[]] st1|e] eqn:Hc; [| |discriminate].
    + intros H; inversion H; subst. apply checkSpan_nodes in Hc. rewrite Hc. discriminate.
    + cbn. discriminate.
  - destruct (checkSpan _ _ _ _ st) as [[res|[]] st1|e] eqn:Hc; [| |discriminate].
    + intros H; inversion H; subst. apply checkSpan_nodes in Hc. rewrite Hc. discriminate.
    + cbn. discriminate.
Qed.

Lemma finish_total (element : Node) (elements : list Node) (st : MatchState) :
  Valid element -> Forall Valid elements ->
  exists res st', finish element elements st = Ok res st' /\ ValidResult res.
Proof.
  intros He Hels. unfold finish, bind, get, ret.
  destruct (_ =? _)%nat; [eexists _, _; split; [reflexivity|exact I]|].
  destruct (_ <? _)%nat; eexists _, _; (split; [reflexivity|]); simpl; auto.
Qed.

Lemma walkDOM_total (element : Node) :
  Valid element ->
  forall st, exists res st', walk element st = Ok res st' /\ ValidResult res.
Proof.
  induction element as [a cs IH|v|v] using Node_ind'; intros Hv st;
    rewrite walkDOM_unfold;
    destruct (checkSpan_total (Elt a cs) (getJSONAttribute (Elt a cs)) st)
      as (f & st1 & Hf & Hnodes) || idtac.
  - rewrite Hf. destruct f as [res|[]].
    + eexists _, _; split; [reflexivity|].
      destruct res as [r|]; [|exact I]. simpl.
      rewrite (Hnodes r eq_refl). constructor; [assumption|constructor].
    + cbn [childNodes].
      assert (Htot : Forall (TotalAt walk) cs).
      { pose proof (Valid_children a cs Hv) as Hcs.
        rewrite Forall_forall in *. intros c Hin st0. apply IH; auto. }
      destruct (scanChildren_total walk (getJSONAttribute (Elt a cs)) cs Htot
                  (Valid_children a cs Hv) 0%nat [] [] st1 (Forall_nil _) (Forall_nil _))
        as (l & st2 & Hl & Hgood).
      rewrite Hl. destruct l as [res|els].
      * eexists _, _; split; [reflexivity|assumption].
      * apply finish_total; assumption.
  - eexists _, _; split; [reflexivity|exact I].
  - eexists _, _; split; [reflexivity|exact I].
Qed.

Lemma scanChildren_skipn (w : Node -> M (option MatchResult))
      (attribs : DataParsoid) (cs : list Node) :
  forall k els prec,
    scan w attribs cs k els prec = scan w attribs (skipn k cs) 0 els prec.
Proof.
  induction cs as [|c cs IH]; intros [|k] els prec; try reflexivity.
  simpl. apply IH.
Qed.

Lemma scanChildren_cons (w : Node -> M (option MatchResult))
      (attribs : DataParsoid) (c : Node) (siblings els prec : list Node)
      (st : MatchState) :
  scan w attribs (c :: siblings) 0 els prec st =
  match (if isElt c
         then visitElement targetRange decodedCommentLength w attribs c els prec
         else bind (visitLeaf targetRange decodedCommentLength c els prec)
                (fun p => ret (Next p)))
          (mkState (currentOffset st) (waitingForEndMatch st)
             (waitingForEndMatch st)) with
  | Throw e => Throw e
  | Ok (Return res) st1 => Ok (Return res) st1
  | Ok (Next (els', prec')) st1 =>
      if wasWaiting st1 && negb (waitingForEndMatch st1)
      then Ok (Next els') st1
      else scan w attribs siblings
             (if isEncapsulated c then skipped c siblings else O)
             els' prec' st1
  end.
Proof.
  simpl. unfold bind at 1. unfold get at 1. unfold bind at 1.
  unfold setWasWaiting at 1. unfold bind at 1.
  match goal with
  | |- match ?x with _ => _ end = _ => destruct x as [[res|[els' prec']] st1|e]
  end; try reflexivity.
  unfold bind, get. destruct (_ && _); reflexivity.
Qed.

Lemma isEncapsulated_isElt (c : Node) :
  isEncapsulated c = true -> isElt c = true.
Proof.
  destruct c as [a cs|v|v]; [reflexivity| |]; intros H; vm_compute in H;
    discriminate H.
Qed.

(** C4 (encapsulated content), as the code has it.  A child whose
    [typeof] marks encapsulated content is walked like any other element,
    so that a part of it can be returned without it; what is passed over
    whole is the rest of its block.  After the turn of such a child, unless
    that turn returns or ends the loop, the scan goes on at the sibling the
    skipper returns, with the elements and the preceding nodes the turn
    has left: the siblings in between are not visited.  So the outcome
    does not depend on them: two sibling lists that agree from the place
    where the scan resumes give the same outcome. *)
Theorem encapsulated_block_passed_over :
  forall (attribs : DataParsoid) (c : Node) (siblings : list Node)
         (els prec : list Node) (st : MatchState),
    isEncapsulated c = true ->
    scan walk attribs (c :: siblings) 0 els prec st
    = match visitElement targetRange decodedCommentLength walk attribs c
              els prec
              (mkState (currentOffset st) (waitingForEndMatch st)
                 (waitingForEndMatch st)) with
      | Throw e => Throw e
      | Ok (Return res) st1 => Ok (Return res) st1
      | Ok (Next (els', prec')) st1 =>
          if wasWaiting st1 && negb (waitingForEndMatch st1)
          then Ok (Next els') st1
          else scan walk attribs (skipn (skipped c siblings) siblings) 0
                 els' prec' st1
      end /\
    forall siblings' : list Node,
      skipn (skipped c siblings) siblings
      = skipn (skipped c siblings') siblings' ->
      scan walk attribs (c :: siblings) 0 els prec st
      = scan walk attribs (c :: siblings') 0 els prec st.
Proof.
  intros attribs c siblings els prec st Henc.
  assert (Hresume : forall sibs : list Node,
             scan walk attribs (c :: sibs) 0 els prec st
             = match visitElement targetRange decodedCommentLength walk attribs c
                       els prec
                       (mkState (currentOffset st) (waitingForEndMatch st)
                          (waitingForEndMatch st)) with
               | Throw e => Throw e
               | Ok (Return res) st1 => Ok (Return res) st1
               | Ok (Next (els', prec')) st1 =>
                   if wasWaiting st1 && negb (waitingForEndMatch st1)
                   then Ok (Next els') st1
                   else scan walk attribs (skipn (skipped c sibs) sibs) 0
                          els' prec' st1
               end).
  { intros sibs. rewrite scanChildren_cons, Henc, (isEncapsulated_isElt c Henc).
    match goal with
    | |- match ?x with _ => _ end = _ => destruct x as [[res|[els' prec']] st1|e]
    end; try reflexivity.
    destruct (_ && _); [reflexivity|].
    rewrite (scanChildren_skipn _ _ sibs). reflexivity. }
  split; [apply Hresume|].
  intros siblings' Hskip. rewrite !Hresume, Hskip. reflexivity.
Qed.
End MatcherProperties.

Import Examples.

Lemma prune_disjoint_span_witness :
  walkDOM (mkRange 0 5) 100 commentLen loneBlock para1020 initialState
  = Ok None initialState.
Proof.
  apply (@prune_disjoint_span (mkRange 0 5) 100 commentLen loneBlock
           _ _ (mkDp (Some (Some 10, Some 20))) 10 20).
  - reflexivity.
  - reflexivity.
  - lia.
  - left. simpl. lia.
Defined.

(** C6 as stated fails for a span that ends at 0: the element [empty00]
    has the dsr [0,0], so that the target range [0,5) starts at its end;
    in a source of 6 code units the matcher reads the end as 5 and returns
    the element as the exact match. *)
Lemma prune_zero_end_counterexample :
  dsr (getJSONAttribute empty00) = Some (Some 0, Some 0) /\
  (end_ (mkRange 0 5) <= 0 \/ start (mkRange 0 5) >= 0) /\
  findMatchingNodes (mkRange 0 5) 6 commentLen loneBlock empty00
  = Ok (Some (mkResult true [empty00])) initialState /\
  findMatchingNodes (mkRange 0 5) 6 commentLen loneBlock empty00
  <> Ok None initialState.
Proof.
  split; [reflexivity|]. split; [right; simpl; lia|].
  split; [reflexivity|]. vm_compute. discriminate.
Qed.

Lemma exact_match_returns_node_witness :
  walkDOM (mkRange 10 20) 100 commentLen loneBlock para1020 initialState
  = Ok (Some (mkResult true [para1020])) initialState.
Proof.
  apply (@exact_match_returns_node (mkRange 10 20) 100 commentLen loneBlock
           _ _ (mkDp (Some (Some 10, Some 20))) 10 (Some 20)).
  - reflexivity.
  - reflexivity.
  - reflexivity.
  - simpl. lia.
  - reflexivity.
Defined.

(** C5 as stated fails for an empty span: the element [empty55] has the
    span [5,5), the target range is [5,5), the start is a number and the
    matcher is not waiting, and the result is [null]. *)
Lemma exact_match_empty_span_counterexample :
  knownSpan 100 (Some 5, Some 5) = (start (mkRange 5 5), end_ (mkRange 5 5)) /\
  waitingForEndMatch initialState = false /\
  findMatchingNodes (mkRange 5 5) 100 commentLen loneBlock empty55
  = Ok None initialState /\
  findMatchingNodes (mkRange 5 5) 100 commentLen loneBlock empty55
  <> Ok (Some (mkResult true [empty55])) initialState.
Proof.
  repeat split; try reflexivity. vm_compute. discriminate.
Qed.

Lemma unknown_bounds_default_witness :
  (exists f st',
      checkSpan (mkRange 3 7) 10 bodyNoBounds (getJSONAttribute bodyNoBounds)
        initialState = Ok f st' /\
      (f = Return None <->
       (end_ (mkRange 3 7) <= 0 \/ start (mkRange 3 7) >= 10 - 1)) /\
      (@None Z = None -> @None Z = None ->
       1 <= end_ (mkRange 3 7) -> start (mkRange 3 7) <= 10 - 2 ->
       f <> Return None)) /\
  (exists f st',
      checkSpan (mkRange 8 9) 10 bodyNoStart (getJSONAttribute bodyNoStart)
        initialState = Ok f st' /\
      (f = Return None <->
       (end_ (mkRange 8 9) <= 0 \/ start (mkRange 8 9) >= 8)) /\
      (@None Z = None -> Some 8 = @None Z ->
       1 <= end_ (mkRange 8 9) -> start (mkRange 8 9) <= 10 - 2 ->
       f <> Return None)).
Proof.
  split.
  - apply (@unknown_bounds_default (mkRange 3 7) 10 bodyNoBounds None None
             initialState).
    reflexivity.
  - apply (@unknown_bounds_default (mkRange 8 9) 10 bodyNoStart None (Some 8)
             initialState).
    reflexivity.
Defined.

(** C7 as stated fails: with both dsr entries [null] and a source of 10
    code units the end is 9, not 10, and the target range [9,10), which
    lies within the source, is pruned at the root. *)
Lemma unknown_bounds_counterexample :
  knownSpan 10 (None, None) = (0, 9) /\
  checkSpan (mkRange 9 10) 10 bodyNoBounds (getJSONAttribute bodyNoBounds)
    initialState = Ok (Return None) initialState /\
  findMatchingNodes (mkRange 9 10) 10 commentLen loneBlock bodyNoBounds
  = Ok None initialState.
Proof.
  repeat split; reflexivity.
Qed.

Lemma match_result_nonempty_witness :
  nodes (mkResult true [partA]) <> [].
Proof.
  apply (match_result_nonempty (mkRange 2 4) 10 commentLen loneBlock
           bodyWithTransclusion initialState (mkResult true [partA])
           (mkState (Some 0) false false)).
  vm_compute. reflexivity.
Defined.

(** The block of [transclusion] takes in [blockPart], which has the span
    of the target range [20,30) and would be the match if it were
    visited; the scan passes it over, resumes at [afterBlock] and returns
    that. *)
Lemma encapsulated_block_passed_over_witness :
  isEncapsulated transclusion = true /\
  scanChildren (mkRange 20 30) commentLen oneMore
    (walkDOM (mkRange 20 30) 40 commentLen oneMore) (mkDp None)
    [transclusion; blockPart; afterBlock] 0 [] [] initialState
  = scanChildren (mkRange 20 30) commentLen oneMore
      (walkDOM (mkRange 20 30) 40 commentLen oneMore) (mkDp None)
      [afterBlock] 0 [] [] initialState /\
  scanChildren (mkRange 20 30) commentLen oneMore
    (walkDOM (mkRange 20 30) 40 commentLen oneMore) (mkDp None)
    [transclusion; blockPart; afterBlock] 0 [] [] initialState
  = Ok (Return (Some (mkResult true [afterBlock]))) initialState.
Proof.
  assert (Henc : isEncapsulated transclusion = true) by (vm_compute; reflexivity).
  split; [exact Henc|].
  rewrite (proj1 (encapsulated_block_passed_over (mkRange 20 30) 40 commentLen
                    oneMore (mkDp None) transclusion [blockPart; afterBlock]
                    [] [] initialState Henc)).
  split; vm_compute; reflexivity.
Defined.

(** C4 as stated fails: [transclusion] is marked [mw:Transclusion] and
    spans [0,10); for the target range [2,4) the matcher walks into it and
    returns its second child alone. *)
Lemma encapsulated_part_counterexample :
  isEncapsulated transclusion = true /\
  findMatchingNodes (mkRange 2 4) 10 commentLen loneBlock bodyWithTransclusion
  = Ok (Some (mkResult true [partA])) (mkState (Some 0) false false) /\
  In partA (childNodes transclusion) /\
  ~ In transclusion [partA].
Proof.
  repeat split; try (vm_compute; reflexivity).
  - right. left. reflexivity.
  - intros [H|[]]. discriminate H.
Qed.

(* ================================================================== *)
(** ** Properties of the significance classifier                        *)
(* ================================================================== *)

Import Wt Classifier.

Section ClassifierProperties.

Variable decodedCommentLength : Node -> Z.
Variable skipped : Node -> list Node -> nat.
Variable outerHTML : Node -> string.
Variable normalizeOutBody : Node -> string.
Variable normalizeOut : string -> string.
Variable serializeNode : Node -> string.
Variable formatHTML : string -> string.
Variable diffHtml : string -> string -> string.

Local Abbreviation check :=
  (checkIfSignificant decodedCommentLength skipped outerHTML normalizeOutBody
     normalizeOut serializeNode formatHTML diffHtml).
Local Abbreviation classifyOne :=
  (classifyOffset decodedCommentLength skipped normalizeOut serializeNode
     formatHTML diffHtml).
Local Abbreviation full :=
  (fullDiffs decodedCommentLength skipped normalizeOut serializeNode
     formatHTML diffHtml).
Local Abbreviation render1 :=
  (renderMatch decodedCommentLength skipped normalizeOut serializeNode
     formatHTML).
Local Abbreviation skipResult data h :=
  (fun offset : OffsetPair =>
     mkDiffResult skip offset (formatDiff (oldWt data) (newWt data) h offset 0) None).

(** C1 (quick path).  When neither document is marked as holding
    fostered content and the normalized HTML of the two documents is the
    same, [checkIfSignificant] returns one result per offset pair, in the
    order of the pairs, each of type [skip], without an HTML diff and with
    [wtDiff] the excerpt of the two ranges without context; the world it
    returns is the one it got, so that no call of [findMatchingNodes] or
    of the HTML differ was made and no span was written.  (The code tests
    the old document only for fostered content.) *)
Theorem quick_path_all_skip :
  forall (offsets : list OffsetPair) (data : Data) (w : World),
    fostered outerHTML (oldBody data) = false ->
    fostered outerHTML (newBody data) = false ->
    normalizeOutBody (oldBody data) = normalizeOutBody (newBody data) ->
    exists results,
      check offsets data w = Normal results w /\
      map offset results = offsets /\
      Forall (fun r => type r = skip /\ htmlDiff r = None /\
                       wtDiff r = formatDiff (oldWt data) (newWt data)
                                    (heap w) (offset r) 0) results.
Proof.
  intros offsets data w Hold _ Hnorm.
  exists (map (skipResult data (heap w)) offsets).
  split; [|split].
  - unfold checkIfSignificant. rewrite Hold, Hnorm, String.eqb_refl. reflexivity.
  - rewrite map_map. simpl. apply map_id.
  - apply Forall_forall. intros r Hin. apply in_map_iff in Hin.
    destruct Hin as (o & <- & _). simpl. auto.
Qed.

Lemma jsLength_pos (s : string) : (jsLength s >? 0) = true <-> s <> EmptyString.
Proof.
  unfold jsLength. rewrite Z.gtb_lt. destruct s; simpl; split; intros H.
  - lia.
  - congruence.
  - discriminate.
  - lia.
Qed.

Lemma renderMatch_heap body wt target w html w' :
  render1 body wt target w = Normal html w' ->
  heap w' = heap w /\
  calls w' = calls w ++ [CallFindMatchingNodes body target (jsLength wt)].
Proof.
  unfold renderMatch.
  destruct (findMatchingNodes _ _ _ _ _) as [res st|e]; [|discriminate].
  intros H; inversion H; subst. split; reflexivity.
Qed.

Lemma classifyOffset_inv data offset w r w' :
  classifyOne data offset w = Normal r w' ->
  offset = Classifier.offset r /\
  heap w' = adjusted data (heap w) offset /\
  exists origHTML newHTML w1 w2 w3,
    render1 (oldBody data) (oldWt data) (heap w' (fst offset)) w1 = Normal origHTML w2 /\
    render1 (newBody data) (newWt data) (heap w' (snd offset)) w2 = Normal newHTML w3 /\
    calls w' = calls w3 ++ [CallHtmlDiff origHTML newHTML] /\
    TwoStage data (heap w') (diffHtml origHTML newHTML) r.
Proof.
  unfold classifyOffset.
  set (h1 := adjusted data (heap w) offset).
  destruct (render1 (oldBody data) _ _ _) as [origHTML w2|e] eqn:H1; [|discriminate].
  destruct (render1 (newBody data) _ _ w2) as [newHTML w3|e] eqn:H2; [|discriminate].
  pose proof (renderMatch_heap _ _ _ _ _ _ H1) as [Hh2 _].
  pose proof (renderMatch_heap _ _ _ _ _ _ H2) as [Hh3 _].
  simpl in Hh2. 
  assert (Hh : heap w3 = h1) by congruence.
  destruct (jsLength _ >? 0) eqn:Hlen;
    [destruct (String.eqb _ _) eqn:Heq|]; cbn [andb negb];
    intros H; inversion H; subst r w'; clear H; cbn [heap Classifier.offset];
    rewrite Hh; (split; [reflexivity|]); (split; [reflexivity|]);
    exists origHTML, newHTML, (mkWorld h1 (calls w)), w2, w3;
    (split; [exact H1|]); (split; [exact H2|]); (split; [reflexivity|]);
    unfold TwoStage; cbn [type htmlDiff wtDiff Classifier.offset].
  - apply String.eqb_eq in Heq.
    repeat split; try congruence; try discriminate.
    intros [_ Hne]. contradiction.
  - apply String.eqb_neq in Heq. apply jsLength_pos in Hlen.
    repeat split; try congruence; auto.
  - assert (Hd : diffHtml origHTML newHTML = EmptyString).
    { destruct (diffHtml origHTML newHTML) eqn:E; [reflexivity|].
      exfalso. assert (Hp : (jsLength (String a s) >? 0) = true)
        by (apply jsLength_pos; discriminate). congruence. }
    repeat split; try congruence; try discriminate.
    intros [Hne _]. contradiction.
Qed.


Lemma classifyOffset_two_stage data offset w r w' :
  classifyOne data offset w = Normal r w' ->
  let h := adjusted data (heap w) offset in
  exists origHTML newHTML w2 w3,
    render1 (oldBody data) (oldWt data) (h (fst offset)) (mkWorld h (calls w))
      = Normal origHTML w2 /\
    render1 (newBody data) (newWt data) (h (snd offset)) w2
      = Normal newHTML w3 /\
    TwoStage data h (diffHtml origHTML newHTML) r.
Proof.
  intros Hone h. revert Hone. unfold classifyOffset. fold h.
  destruct (render1 (oldBody data) _ _ _) as [origHTML' w2'|e] eqn:H1; [|discriminate].
  destruct (render1 (newBody data) _ _ w2') as [newHTML' w3'|e] eqn:H2; [|discriminate].
  intros Hone. exists origHTML', newHTML', w2', w3'.
  split; [first [reflexivity|exact H1]|].
  split; [first [reflexivity|exact H2]|].
  revert Hone. unfold excerpts. cbn [fst snd].
  destruct (jsLength _ >? 0) eqn:Hlen;
    [destruct (String.eqb _ _) eqn:Heq|]; cbn [andb negb];
    intros H; inversion H; subst r w'; clear H;
    unfold TwoStage; cbn [type htmlDiff wtDiff Classifier.offset].
  - apply String.eqb_eq in Heq.
    repeat split; try congruence; try discriminate.
    intros [_ Hne]. contradiction.
  - apply String.eqb_neq in Heq. apply jsLength_pos in Hlen.
    repeat split; try congruence; auto.
  - assert (Hd : diffHtml origHTML' newHTML' = EmptyString).
    { destruct (diffHtml origHTML' newHTML') eqn:E; [reflexivity|].
      exfalso. assert (Hp : (jsLength (String a s) >? 0) = true)
        by (apply jsLength_pos; discriminate). congruence. }
    repeat split; try congruence; try discriminate.
    intros [Hne _]. contradiction.
Qed.

Lemma fullDiffs_at data offsets :
  forall w results w',
    full data offsets w = Normal results w' ->
    map offset results = offsets /\
    forall i off r,
      nth_error offsets i = Some off ->
      nth_error results i = Some r ->
      exists wi wi',
        full data (firstn i offsets) w = Normal (firstn i results) wi /\
        heap wi = fold_left (adjusted data) (firstn i offsets) (heap w) /\
        classifyOne data off wi = Normal r wi'.
Proof.
  induction offsets as [|o more IH]; intros w results w'; cbn [fullDiffs].
  - intros H; inversion H; subst. split; [reflexivity|].
    intros [|i] off r Hoff; discriminate Hoff.
  - destruct (classifyOne data o w) as [r0 w1|e] eqn:Hone; [|discriminate].
    destruct (full data more w1) as [rs w2|e] eqn:Hrest; [|discriminate].
    intros H; inversion H; subst results w'; clear H.
    destruct (IH _ _ _ Hrest) as (Hmap & Hat).
    destruct (classifyOffset_inv _ _ _ _ _ Hone) as (Ho & Hh & _).
    split; [cbn [map]; congruence|].
    intros [|i] off r Hoff Hr; cbn [nth_error firstn] in *.
    + injection Hoff as <-. injection Hr as <-.
      exists w, w1. cbn [fullDiffs fold_left]. auto.
    + destruct (Hat i off r Hoff Hr) as (wi & wi' & Hpre & Hheap & Hcl).
      exists wi, wi'. cbn [fullDiffs fold_left]. rewrite Hone, Hpre, <- Hh.
      auto.
Qed.

(** C2 (two-stage promotion).  The full loop gives one result per offset
    pair, in the order of the pairs, each holding its pair.  The result of
    the pair at index [i] is made in the world [wi] that the loop has
    reached after the pairs before it, whose spans are those the loop
    started with after the adjustments of these pairs; with [h] the spans
    after the adjustment of the pair itself and with the HTML diff of the
    two fragments rendered from the matches for its two spans, the type is
    [fail] exactly when the HTML diff is not empty and the two wikitext
    excerpts differ after [normalizeWikitext]; then [htmlDiff] is the diff
    and [wtDiff] has 25 code units of context; otherwise the type is
    [skip], without [htmlDiff], and [wtDiff] has no context. *)
Theorem two_stage_promotion :
  forall (data : Data) (offsets : list OffsetPair) (w w' : World)
         (results : list DiffResult),
    full data offsets w = Normal results w' ->
    map offset results = offsets /\
    forall (i : nat) (off : OffsetPair) (r : DiffResult),
      nth_error offsets i = Some off ->
      nth_error results i = Some r ->
      exists wi origHTML newHTML w2 w3,
        full data (firstn i offsets) w = Normal (firstn i results) wi /\
        heap wi = fold_left (adjusted data) (firstn i offsets) (heap w) /\
        let h := adjusted data (heap wi) off in
        render1 (oldBody data) (oldWt data) (h (fst off))
          (mkWorld h (calls wi)) = Normal origHTML w2 /\
        render1 (newBody data) (newWt data) (h (snd off)) w2
          = Normal newHTML w3 /\
        TwoStage data h (diffHtml origHTML newHTML) r.
Proof.
  intros data offsets w w' results Hfull.
  destruct (fullDiffs_at _ _ _ _ _ Hfull) as (Hmap & Hat).
  split; [exact Hmap|].
  intros i off r Hoff Hr.
  destruct (Hat i off r Hoff Hr) as (wi & wi' & Hpre & Hheap & Hcl).
  destruct (classifyOffset_two_stage _ _ _ _ _ Hcl)
    as (origHTML & newHTML & w2 & w3 & H1 & H2 & Hts).
  exists wi, origHTML, newHTML, w2, w3.
  split; [exact Hpre|]. split; [exact Hheap|]. cbv zeta.
  split; [exact H1|]. split; [exact H2|]. exact Hts.
Qed.

Lemma renderMatch_total body wt target w :
  Valid body ->
  exists html w', render1 body wt target w = Normal html w'.
Proof.
  intros Hv. unfold renderMatch, findMatchingNodes.
  destruct (walkDOM_total target (jsLength wt) decodedCommentLength skipped body Hv initialState)
    as (res & st' & Hw & _).
  rewrite Hw. eexists _, _; reflexivity.
Qed.

Lemma classifyOffset_total data offset w :
  Valid (oldBody data) -> Valid (newBody data) ->
  exists r w', classifyOne data offset w = Normal r w'.
Proof.
  intros Ho Hn. unfold classifyOffset.
  match goal with
  | |- context [render1 (oldBody data) ?wt ?t ?w0] =>
      destruct (renderMatch_total (oldBody data) wt t w0 Ho) as (h1 & w2 & H1)
  end. rewrite H1.
  destruct (renderMatch_total (newBody data) (newWt data)
              (adjusted data (heap w) offset (snd offset)) w2 Hn) as (h2 & w3 & H2).
  rewrite H2.
  destruct (_ && _); eexists _, _; reflexivity.
Qed.

Lemma fullDiffs_total data offsets :
  Valid (oldBody data) -> Valid (newBody data) ->
  forall w, exists results w',
    full data offsets w = Normal results w' /\ map offset results = offsets.
Proof.
  intros Ho Hn. induction offsets as [|o more IH]; intros w; simpl.
  - eexists _, _; split; reflexivity.
  - destruct (classifyOffset_total data o w Ho Hn) as (r & w1 & Hr). rewrite Hr.
    destruct (IH w1) as (rs & w2 & Hrs & Hmap). rewrite Hrs.
    eexists _, _; split; [reflexivity|]. simpl.
    destruct (classifyOffset_inv _ _ _ _ _ Hr) as (Hoff & _). congruence.
Qed.

(** C8 (classification does not throw), as the code has it: nothing in
    the classifier or the matcher catches an exception; [JSON.parse] at
    line 233 throws on a [data-parsoid] text that is not JSON, and line
    234 throws on the text [null], whose value has no members.  For two
    documents in which every [data-parsoid] attribute is missing or holds
    the text of an object, and with collaborators that return for every
    argument (they are functions here), [checkIfSignificant] returns
    normally, with one result per offset pair in the order of the pairs;
    and when [findMatchingNodes] returns [null] for a region, what is
    rendered for it is the empty markup. *)
Theorem classification_total :
  forall (offsets : list OffsetPair) (data : Data) (w : World),
    validMeta (oldBody data) = true ->
    validMeta (newBody data) = true ->
    (exists results w',
        check offsets data w = Normal results w' /\
        map offset results = offsets) /\
    (forall body wt target w0 st,
        findMatchingNodes target (jsLength wt) decodedCommentLength skipped body
          = Ok None st ->
        render1 body wt target w0
        = Normal (formatHTML (normalizeOut EmptyString))
            (mkWorld (heap w0)
               (calls w0 ++ [CallFindMatchingNodes body target (jsLength wt)]))).
Proof.
  intros offsets data w Ho Hn. split.
  - unfold checkIfSignificant.
    destruct (negb _); [destruct (String.eqb _ _)|];
      try (apply fullDiffs_total; assumption).
    eexists _, _; split; [reflexivity|]. rewrite map_map. apply map_id.
  - intros body wt target w0 st Hnone. unfold renderMatch. rewrite Hnone.
    reflexivity.
Qed.

Lemma update_same h a r : update h a r a = r.
Proof. unfold update. rewrite Nat.eqb_refl. reflexivity. Qed.

Lemma update_other h a r b : b <> a -> update h a r b = h b.
Proof. unfold update. intros H. apply Nat.eqb_neq in H. rewrite H. reflexivity. Qed.

Lemma adjusted_other data h offset b :
  b <> fst offset -> adjusted data h offset b = h b.
Proof.
  intros H. unfold adjusted. destruct (implicitlyClosed _ _ _); [|reflexivity].
  apply update_other. exact H.
Qed.

Lemma fullDiffs_frame data offsets :
  forall w results w' b,
    full data offsets w = Normal results w' ->
    ~ In b (map fst offsets) ->
    heap w' b = heap w b.
Proof.
  induction offsets as [|o more IH]; intros w results w' b; simpl.
  - intros H _; inversion H; reflexivity.
  - destruct (classifyOne data o w) as [r w1|e] eqn:Hone; [|discriminate].
    destruct (full data more w1) as [rs w2|e] eqn:Hrest; [|discriminate].
    intros H Hnin; inversion H; subst. simpl in Hnin.
    rewrite (IH _ _ _ b Hrest) by (intros Hb; apply Hnin; right; exact Hb).
    destruct (classifyOffset_inv _ _ _ _ _ Hone) as (_ & Hh & _).
    rewrite Hh. apply adjusted_other. intros ->. apply Hnin. left. reflexivity.
Qed.

Lemma implicitlyClosed_ext wt h h' offset :
  h (fst offset) = h' (fst offset) ->
  h (snd offset) = h' (snd offset) ->
  implicitlyClosed wt h offset = implicitlyClosed wt h' offset.
Proof.
  intros H0 H1. unfold implicitlyClosed. rewrite H0, H1. reflexivity.
Qed.

Lemma in_spanAddrs_fst offsets (p : OffsetPair) :
  In p offsets -> In (fst p) (spanAddrs offsets).
Proof.
  intros H. unfold spanAddrs. apply in_flat_map. exists p. simpl. auto.
Qed.

Lemma in_spanAddrs_snd offsets (p : OffsetPair) :
  In p offsets -> In (snd p) (spanAddrs offsets).
Proof.
  intros H. unfold spanAddrs. apply in_flat_map. exists p. simpl. auto.
Qed.

Lemma fullDiffs_mutates data offsets :
  forall w results w' i a b,
    full data offsets w = Normal results w' ->
    NoDup (spanAddrs offsets) ->
    nth_error offsets i = Some (a, b) ->
    implicitlyClosed (newWt data) (heap w) (a, b) = true ->
    start (heap w' a) = start (heap w a) - 1 /\
    exists r, nth_error results i = Some r /\ offset r = (a, b).
Proof.
  induction offsets as [|o more IH]; intros w results w' i a b Hfull Hnd Hnth Hic.
  - destruct i; discriminate.
  - simpl in Hfull.
    destruct (classifyOne data o w) as [r w1|e] eqn:Hone; [|discriminate].
    destruct (full data more w1) as [rs w2|e] eqn:Hrest; [|discriminate].
    inversion Hfull; subst; clear Hfull.
    simpl in Hnd. inversion Hnd as [|? ? Hn1 Hnd1]; subst.
    inversion Hnd1 as [|? ? Hn2 Hnd2]; subst.
    destruct (classifyOffset_inv _ _ _ _ _ Hone) as (Hoff & Hh & _).
    destruct i as [|i]; simpl in Hnth.
    + injection Hnth as Heq. rewrite Heq in *. simpl in *.
      split.
      * rewrite (fullDiffs_frame _ _ _ _ _ a Hrest).
        -- rewrite Hh. unfold adjusted. rewrite Hic. simpl. rewrite update_same.
           reflexivity.
        -- intros Hin. apply in_map_iff in Hin. destruct Hin as (p & Hp & Hin).
           apply in_spanAddrs_fst in Hin. rewrite Hp in Hin.
           apply Hn1. right. exact Hin.
      * exists r. split; [reflexivity|]. symmetry. exact Hoff.
    + assert (Hin : In (a, b) more) by (eapply nth_error_In; eauto).
      pose proof (in_spanAddrs_fst _ _ Hin) as Ha.
      pose proof (in_spanAddrs_snd _ _ Hin) as Hb. simpl in Ha, Hb.
      assert (Hafst : a <> fst o) by (intros ->; apply Hn1; right; exact Ha).
      assert (Hbfst : b <> fst o) by (intros ->; apply Hn1; right; exact Hb).
      assert (Hwa : heap w1 a = heap w a)
        by (rewrite Hh; apply adjusted_other; exact Hafst).
      assert (Hwb : heap w1 b = heap w b)
        by (rewrite Hh; apply adjusted_other; exact Hbfst).
      destruct (IH w1 rs _ i a b Hrest Hnd2 Hnth) as (Hs & r' & Hr' & Hoff').
      { rewrite <- Hic. apply implicitlyClosed_ext; simpl; assumption. }
      split; [rewrite Hs, Hwa; reflexivity|].
      exists r'. split; assumption.
Qed.

(** C10 (the offsets are written in place), as the code has it: the
    adjustment is made in the full loop only.  When the quick path is not
    taken and the span objects of the pairs are all distinct, for every
    pair that meets the condition of the implicit-close adjustment the
    start of its old span is one less after the call than before, the
    result at the same index holds that very pair, and the start a report
    reads through the result is the decremented one. *)
Theorem implicit_close_mutates_offset :
  forall (offsets : list OffsetPair) (data : Data) (w w' : World)
         (results : list DiffResult) (i : nat) (a b : Addr),
    check offsets data w = Normal results w' ->
    (fostered outerHTML (oldBody data) = true \/
     normalizeOutBody (oldBody data) <> normalizeOutBody (newBody data)) ->
    NoDup (spanAddrs offsets) ->
    nth_error offsets i = Some (a, b) ->
    implicitlyClosed (newWt data) (heap w) (a, b) = true ->
    start (heap w' a) = start (heap w a) - 1 /\
    exists r,
      nth_error results i = Some r /\ offset r = (a, b) /\
      reportedCharacter (heap w') r = start (heap w a) - 1.
Proof.
  intros offsets data w w' results i a b Hcheck Hfull Hnd Hnth Hic.
  assert (Hf : full data offsets w = Normal results w').
  { revert Hcheck. unfold checkIfSignificant.
    destruct Hfull as [Hfost|Hne].
    - rewrite Hfost. simpl. auto.
    - destruct (negb _); [|auto].
      apply String.eqb_neq in Hne. rewrite Hne. auto. }
  destruct (fullDiffs_mutates _ _ _ _ _ _ _ _ Hf Hnd Hnth Hic) as (Hs & r & Hr & Hoff).
  split; [exact Hs|]. exists r. repeat split; try assumption.
  unfold reportedCharacter. rewrite Hoff. exact Hs.
Qed.

End ClassifierProperties.

(* ------------------------------------------------------------------ *)
(** *** The classifier on the example documents                         *)
(* ------------------------------------------------------------------ *)

Lemma quick_path_all_skip_witness :
  exists results,
    classify [(0, 1)%nat] implicitClose world0 = Normal results world0 /\
    map offset results = [(0, 1)%nat] /\
    Forall (fun r => type r = skip /\ htmlDiff r = None /\
                     wtDiff r = formatDiff (oldWt implicitClose)
                                  (newWt implicitClose) (heap world0)
                                  (offset r) 0) results.
Proof.
  apply (quick_path_all_skip commentLen loneBlock noMarkup render same render
           same textDiff [(0, 1)%nat] implicitClose world0).
  - reflexivity.
  - reflexivity.
  - reflexivity.
Defined.

Lemma two_stage_promotion_witness :
  exists results w',
    fullDiffs commentLen loneBlock same render same textDiff
      changedWord [(4, 5)%nat; (2, 3)%nat] world0 = Normal results w' /\
    map type results = [fail; skip] /\
    map offset results = [(4, 5)%nat; (2, 3)%nat] /\
    forall (i : nat) (off : OffsetPair) (r : DiffResult),
      nth_error [(4, 5)%nat; (2, 3)%nat] i = Some off ->
      nth_error results i = Some r ->
      exists wi origHTML newHTML w2 w3,
        fullDiffs commentLen loneBlock same render same textDiff
          changedWord (firstn i [(4, 5)%nat; (2, 3)%nat]) world0
        = Normal (firstn i results) wi /\
        heap wi = fold_left (adjusted changedWord)
                    (firstn i [(4, 5)%nat; (2, 3)%nat]) (heap world0) /\
        let h := adjusted changedWord (heap wi) off in
        renderMatch commentLen loneBlock same render same
          (oldBody changedWord) (oldWt changedWord) (h (fst off))
          (mkWorld h (calls wi)) = Normal origHTML w2 /\
        renderMatch commentLen loneBlock same render same
          (newBody changedWord) (newWt changedWord) (h (snd off)) w2
        = Normal newHTML w3 /\
        TwoStage changedWord h (textDiff origHTML newHTML) r.
Proof.
  eexists _, _. split; [|split].
  - vm_compute. reflexivity.
  - reflexivity.
  - eapply (two_stage_promotion commentLen loneBlock same render same textDiff
              changedWord [(4, 5)%nat; (2, 3)%nat] world0).
    vm_compute. reflexivity.
Defined.

Lemma classification_total_witness :
  (exists results w',
      classify [(0, 1)%nat] implicitCloseChanged world0 = Normal results w' /\
      map offset results = [(0, 1)%nat]) /\
  (forall body wt target w0 st,
      findMatchingNodes target (jsLength wt) commentLen loneBlock body
        = Ok None st ->
      renderMatch commentLen loneBlock same render same body wt target w0
      = Normal (same (same EmptyString))
          (mkWorld (heap w0)
             (calls w0 ++ [CallFindMatchingNodes body target (jsLength wt)]))).
Proof.
  apply (classification_total commentLen loneBlock noMarkup render same render
           same textDiff [(0, 1)%nat] implicitCloseChanged world0).
  - reflexivity.
  - reflexivity.
Defined.

(** C8 as stated fails: the element [badMeta] carries a [data-parsoid]
    text that is not JSON and comes back from [walkDOM] as the single
    matched child of the body; line 233 hands the text to [JSON.parse],
    which throws, and nothing catches it.  With the text [null] in its
    place [JSON.parse] returns and line 234 throws. *)
Lemma classification_throws_counterexample :
  validMeta (oldBody badMetaData) = false /\
  findMatchingNodes (mkRange 2 6) 6 commentLen loneBlock bodyBadMeta
  = Throw SyntaxError /\
  classify [(2, 3)%nat] badMetaData world0 = Abrupt SyntaxError /\
  validMeta (oldBody nullMetaData) = false /\
  findMatchingNodes (mkRange 2 6) 6 commentLen loneBlock bodyNullMeta
  = Throw TypeError /\
  classify [(2, 3)%nat] nullMetaData world0 = Abrupt TypeError.
Proof.
  repeat split; vm_compute; reflexivity.
Qed.

Lemma implicit_close_mutates_offset_witness :
  exists results w',
    classify [(0, 1)%nat] implicitCloseChanged world0 = Normal results w' /\
    start (heap w' 0%nat) = start (heap world0 0%nat) - 1 /\
    exists r,
      nth_error results 0 = Some r /\ offset r = (0, 1)%nat /\
      reportedCharacter (heap w') r = start (heap world0 0%nat) - 1.
Proof.
  eexists _, _. split.
  - vm_compute. reflexivity.
  - eapply (implicit_close_mutates_offset commentLen loneBlock noMarkup render
              same render same textDiff [(0, 1)%nat] implicitCloseChanged
              world0 _ _ 0%nat 0%nat 1%nat).
    + vm_compute. reflexivity.
    + right. vm_compute. discriminate.
    + vm_compute. repeat constructor; simpl; intuition discriminate.
    + reflexivity.
    + vm_compute. reflexivity.
Defined.

(** C10 as stated fails on the quick path: the pair at addresses 0 and 1
    meets the condition of the adjustment ([old.start = old.end] and the
    new excerpt is a lone closing tag), the two documents are the same,
    and the old span keeps its start, 8, which is also what a report
    shows. *)
Lemma implicit_close_quick_path_counterexample :
  implicitlyClosed (newWt implicitClose) (heap world0) (0, 1)%nat = true /\
  exists results,
    classify [(0, 1)%nat] implicitClose world0 = Normal results world0 /\
    start (heap world0 0%nat) = 8 /\
    map (reportedCharacter (heap world0)) results = [8] /\
    8 <> start (spans 0%nat) - 1.
Proof.
  split; [vm_compute; reflexivity|].
  eexists. split; [vm_compute; reflexivity|].
  repeat split. vm_compute. discriminate.
Qed.

(* ================================================================== *)
(** ** Properties of the wikitext normalizer                            *)
(* ================================================================== *)

Local Open Scope nat_scope.
#[local] Arguments Ascii.eqb : simpl never.

Section Engine.

Lemma Suffix_refl x : Suffix x x.
Proof. exists []. reflexivity. Qed.

Lemma Suffix_trans z y x : Suffix z y -> Suffix y x -> Suffix z x.
Proof.
  intros [l1 H1] [l2 H2]. exists (l2 ++ l1). rewrite H2, H1, app_assoc. reflexivity.
Qed.

Lemma starLoop_cont (step : mstate -> cont -> option mstate) (g : bool) (k : cont) :
  (forall x k' z, step x k' = Some z -> exists y, k' y = Some z /\ Suffix y x) ->
  forall n x z, starLoop step g k n x = Some z ->
                exists y, k y = Some z /\ Suffix y x.
Proof.
  intros Hstep. induction n as [|n IH]; intros x z; simpl.
  - intros H. exists x. split; [exact H|apply Suffix_refl].
  - assert (Hagain : forall v,
               step x (fun y => if length (rest y) <? length (rest x)
                                then starLoop step g k n y else None) = Some v ->
               exists y, k y = Some v /\ Suffix y x).
    { intros v Hv. apply Hstep in Hv. destruct Hv as (y & Hy & Hs).
      destruct (length (rest y) <? length (rest x)); [|discriminate].
      apply IH in Hy. destruct Hy as (y' & Hk & Hs').
      exists y'. split; [exact Hk|]. eapply Suffix_trans; eassumption. }
    destruct g.
    + destruct (step x _) as [v|] eqn:E.
      * intros H; inversion H; subst. apply Hagain. reflexivity.
      * intros H. exists x. split; [exact H|apply Suffix_refl].
    + destruct (k x) as [v|] eqn:E.
      * intros H; inversion H; subst. exists x. split; [exact E|apply Suffix_refl].
      * apply Hagain.
Qed.

Lemma m_cont (r : regex) :
  forall x k z, m r x k = Some z -> exists y, k y = Some z /\ Suffix y x.
Proof.
  induction r as [|p|r1 IH1 r2 IH2|r1 IH1 r2 IH2|g r IH|i r IH|b r IH| | |];
    intros x k z; cbn [m].
  - intros H. exists x. split; [exact H|apply Suffix_refl].
  - destruct (rest x) as [|c t] eqn:E; [discriminate|].
    destruct (p c); [|discriminate]. intros H.
    eexists. split; [exact H|]. exists [c]. simpl. exact E.
  - intros H. apply IH1 in H. destruct H as (y & Hy & Hs).
    apply IH2 in Hy. destruct Hy as (y' & Hk & Hs').
    exists y'. split; [exact Hk|]. eapply Suffix_trans; eassumption.
  - destruct (m r1 x k) as [v|] eqn:E.
    + intros H; inversion H; subst. apply IH1. exact E.
    + apply IH2.
  - apply starLoop_cont. exact IH.
  - intros H. apply IH in H. destruct H as (y & Hy & Hs).
    eexists. split; [exact Hy|]. exact Hs.
  - destruct b.
    + destruct (m r x _) as [y|]; [|discriminate]. intros H.
      eexists. split; [exact H|]. exists []. reflexivity.
    + destruct (m r x _) as [y|]; [discriminate|]. intros H.
      exists x. split; [exact H|apply Suffix_refl].
  - destruct (prev x); [discriminate|]. intros H.
    exists x. split; [exact H|apply Suffix_refl].
  - destruct (rest x); [|discriminate]. intros H.
    exists x. split; [exact H|apply Suffix_refl].
  - destruct (xorb _ _); [|discriminate]. intros H.
    exists x. split; [exact H|apply Suffix_refl].
Qed.

Lemma requires_none (P : ascii -> bool) (r : regex) :
  Requires P r ->
  forall x k, (forall c, In c (rest x) -> P c = false) -> m r x k = None.
Proof.
  induction 1 as [p Hp|r1 r2 _ IH|r1 r2 _ IH|r1 r2 _ IH1 _ IH2|i r _ IH];
    intros x k Hx; simpl.
  - destruct (rest x) as [|c t] eqn:E; [reflexivity|].
    destruct (p c) eqn:Epc; [|reflexivity].
    apply Hp in Epc. rewrite Hx in Epc; [discriminate|]. try rewrite E. left. reflexivity.
  - apply IH. exact Hx.
  - destruct (m r1 x _) as [z|] eqn:E; [|reflexivity].
    apply m_cont in E. destruct E as (y & Hy & (l & Hl)).
    rewrite IH in Hy; [discriminate|].
    intros c Hc. apply Hx. rewrite Hl. apply in_or_app. right. exact Hc.
  - rewrite IH1 by exact Hx. apply IH2. exact Hx.
  - apply IH. exact Hx.
Qed.

Lemma exec_none (P : ascii -> bool) (r : regex) (p : option ascii) (s : str) :
  Requires P r -> (forall c, In c s -> P c = false) -> exec r p s = None.
Proof.
  intros Hr Hs. unfold exec. rewrite (requires_none P r Hr); [reflexivity|exact Hs].
Qed.

Lemma replaceFrom_id (P : ascii -> bool) (r : regex)
      (f : str -> list (nat * str) -> str) :
  Requires P r ->
  forall s p, (forall c, In c s -> P c = false) -> replaceFrom r f p s 0 = s.
Proof.
  intros Hr. induction s as [|c t IH]; intros p Hs; simpl;
    rewrite (exec_none P r _ _ Hr Hs); [reflexivity|].
  rewrite IH; [reflexivity|]. intros c' Hc'. apply Hs. right. exact Hc'.
Qed.

Lemma replaceFirstFrom_id (P : ascii -> bool) (r : regex)
      (f : str -> list (nat * str) -> str) :
  Requires P r ->
  forall s p, (forall c, In c s -> P c = false) -> replaceFirstFrom r f p s = s.
Proof.
  intros Hr. induction s as [|c t IH]; intros p Hs; simpl;
    rewrite (exec_none P r _ _ Hr Hs); [reflexivity|].
  rewrite IH; [reflexivity|]. intros c' Hc'. apply Hs. right. exact Hc'.
Qed.

Lemma replaceFrom_skip (r : regex) (f : str -> list (nat * str) -> str) :
  forall t k p, k <= length t ->
    exists p', replaceFrom r f p t k = replaceFrom r f p' (skipn k t) 0.
Proof.
  induction t as [|c t IH]; intros k p Hk.
  - simpl in Hk. assert (k = 0) by lia. subst. exists p. reflexivity.
  - destruct k as [|k].
    + exists p. reflexivity.
    + simpl in Hk. apply IH. lia.
Qed.

Lemma replaceFrom_chars (r : regex) (f : str -> list (nat * str) -> str)
      (Q : ascii -> Prop) :
  (forall mt cs c, In c (f mt cs) -> Q c) ->
  forall s p k c, In c (replaceFrom r f p s k) -> Q c \/ In c s.
Proof.
  intros Hf. induction s as [|a t IH]; intros p k c; simpl.
  - destruct k; [|intros []].
    destruct (exec r p []) as [[len cs]|]; [|intros []].
    rewrite app_nil_r. intros H. left. eapply Hf. exact H.
  - destruct k as [|k].
    + destruct (exec r p (a :: t)) as [[len cs]|].
      * intros H. apply in_app_or in H. destruct H as [H|H].
        -- left. eapply Hf. exact H.
        -- destruct len as [|l].
           ++ destruct H as [H|H]; [right; left; exact H|].
              apply IH in H. tauto.
           ++ apply IH in H. tauto.
      * intros [H|H]; [right; left; exact H|]. apply IH in H. tauto.
    + intros H. apply IH in H. tauto.
Qed.

End Engine.

Section Spaces.

Lemma run_le (s : str) : run s <= length s.
Proof.
  induction s as [|c t IH]; simpl; [lia|]. destruct (Ascii.eqb sp c); lia.
Qed.

Lemma headSp_skip_run (s : str) : headSp (skipn (run s) s) = false.
Proof.
  induction s as [|c t IH]; simpl; [reflexivity|].
  destruct (Ascii.eqb sp c) eqn:E; simpl; [exact IH|exact E].
Qed.

Lemma run_headSp (s : str) : headSp s = false -> run s = 0.
Proof.
  destruct s as [|c t]; simpl; [reflexivity|]. intros ->. reflexivity.
Qed.

Lemma m_ch (c : ascii) (x : mstate) (k : cont) :
  m (ch c) x k =
  match rest x with
  | a :: t => if Ascii.eqb c a then k (MState (Some a) t (caps x)) else None
  | [] => None
  end.
Proof. reflexivity. Qed.

Lemma starLoop_greedy_S (step : mstate -> cont -> option mstate) (k : cont)
      (n : nat) (x : mstate) :
  starLoop step true k (S n) x =
  match step x (fun y => if length (rest y) <? length (rest x)
                         then starLoop step true k n y else None) with
  | Some z => Some z
  | None => k x
  end.
Proof. reflexivity. Qed.

Lemma starLoop_spaces :
  forall n x, length (rest x) < n ->
    exists y, starLoop (m (ch sp)) true (fun y => Some y) n x = Some y /\
              rest y = skipn (run (rest x)) (rest x) /\ caps y = caps x.
Proof.
  induction n as [|n IH]; intros x Hlt; [lia|].
  rewrite starLoop_greedy_S, m_ch. destruct (rest x) as [|c t] eqn:E.
  - exists x. rewrite E. auto.
  - cbn [run]. destruct (Ascii.eqb sp c) eqn:Ec.
    + cbn [rest length].
      replace (length t <? S (length t)) with true
        by (symmetry; apply Nat.ltb_lt; lia).
      destruct (IH (MState (Some c) t (caps x))) as (y & Hy & Hr & Hc).
      { cbn [rest length] in *. lia. }
      rewrite Hy. exists y. cbn [rest caps skipn] in *. auto.
    + exists x. rewrite E. auto.
Qed.

Lemma exec_spaces (p : option ascii) (s : str) :
  exec reSpaces p s =
  match s with
  | c :: t => if Ascii.eqb sp c then Some (S (run t), []) else None
  | [] => None
  end.
Proof.
  unfold exec, reSpaces, plus.
  change (m (Seq (ch sp) (Star true (ch sp))) (MState p s []) (fun y => Some y))
    with (m (ch sp) (MState p s [])
            (fun y => starLoop (m (ch sp)) true (fun y => Some y)
                        (S (length (rest y))) y)).
  rewrite m_ch. cbn [rest caps].
  destruct s as [|c t]; [reflexivity|].
  destruct (Ascii.eqb sp c); [|reflexivity].
  destruct (starLoop_spaces (S (length t)) (MState (Some c) t []))
    as (y & Hy & Hr & Hc); [cbn [rest]; lia|].
  cbn [rest caps] in *. rewrite Hy, Hr, Hc, length_skipn. cbn [length].
  f_equal. f_equal. pose proof (run_le t). lia.
Qed.

Lemma collapse_fixed :
  forall s p, noDouble s = true -> replaceFrom reSpaces oneSpace p s 0 = s.
Proof.
  induction s as [|c t IH]; intros p Hs; cbn [replaceFrom];
    rewrite exec_spaces; [reflexivity|].
  cbn [noDouble] in Hs. apply andb_true_iff in Hs. destruct Hs as [Hh Ht].
  destruct (Ascii.eqb sp c) eqn:Ec.
  - cbn [andb] in Hh. apply negb_true_iff in Hh.
    rewrite (run_headSp t Hh). unfold oneSpace. cbn [app].
    apply Ascii.eqb_eq in Ec. subst c. rewrite IH by exact Ht. reflexivity.
  - rewrite IH by exact Ht. reflexivity.
Qed.

Lemma collapse_noDouble :
  forall n s p, length s <= n ->
    noDouble (replaceFrom reSpaces oneSpace p s 0) = true /\
    headSp (replaceFrom reSpaces oneSpace p s 0) = headSp s.
Proof.
  induction n as [|n IH]; intros s p Hn.
  - destruct s; [|cbn [length] in Hn; lia].
    cbn [replaceFrom]. rewrite exec_spaces. auto.
  - destruct s as [|c t]; [cbn [replaceFrom]; rewrite exec_spaces; auto|].
    cbn [replaceFrom]. rewrite exec_spaces. cbn [length] in Hn.
    destruct (Ascii.eqb sp c) eqn:Ec.
    + destruct (replaceFrom_skip reSpaces oneSpace t (run t) (Some c) (run_le t))
        as (p' & Hp'). rewrite Hp'.
      destruct (IH (skipn (run t) t) p') as [Hnd Hhd].
      { rewrite length_skipn. lia. }
      rewrite headSp_skip_run in Hhd.
      unfold oneSpace at 1 3. cbn [app noDouble headSp]. rewrite Hhd, Hnd.
      rewrite andb_false_r. cbn [negb andb]. rewrite Ascii.eqb_refl. auto.
    + destruct (IH t (Some c)) as [Hnd Hhd]; [lia|].
      cbn [noDouble headSp]. rewrite Ec, Hnd. auto.
Qed.

End Spaces.

Section Rules.

Ltac rq_ch :=
  apply RqChr; intros c Hc; apply Ascii.eqb_eq in Hc; subst c; reflexivity.

Lemma special_oneof_bar_bang (c : ascii) :
  memc (s2l "|!") c = true -> special c = true.
Proof.
  unfold memc. simpl. intros H.
  repeat (apply orb_true_iff in H; destruct H as [H|H]);
    try discriminate; apply Ascii.eqb_eq in H; subst c; reflexivity.
Qed.

Lemma requires_leadingTab : Requires special reLeadingTab.
Proof. unfold reLeadingTab. apply RqSeqR. rq_ch. Qed.

Lemma requires_nlTab : Requires special reNlTab.
Proof. unfold reNlTab. apply RqSeqR. rq_ch. Qed.

Lemma requires_tag : Requires special reTag.
Proof. unfold reTag. apply RqSeqL. rq_ch. Qed.

Lemma requires_tableAttrs : Requires special reTableAttrs.
Proof.
  unfold reTableAttrs. apply RqSeqR, RqSeqL, RqGrp.
  apply RqAlt; [|apply RqAlt].
  - unfold lit. simpl. apply RqSeqR, RqSeqL. rq_ch.
  - apply RqSeqL. rq_ch.
  - rq_ch.
Qed.

Lemma requires_style : Requires special reStyle.
Proof.
  unfold reStyle. do 4 apply RqSeqR. apply RqSeqL. rq_ch.
Qed.

Lemma requires_quoted : Requires special reQuoted.
Proof. unfold reQuoted. apply RqSeqL. rq_ch. Qed.

Lemma requires_loneClose : Requires special reLoneClose.
Proof.
  unfold reLoneClose. apply RqSeqR, RqSeqL. unfold lit. simpl.
  apply RqSeqL. rq_ch.
Qed.

Lemma requires_cellClose : Requires special reCellClose.
Proof.
  unfold reCellClose. apply RqSeqL, RqGrp, RqSeqL. apply RqChr.
  exact special_oneof_bar_bang.
Qed.

Lemma collapse_plain (s : str) :
  plain s -> plain (replaceAll reSpaces oneSpace s).
Proof.
  intros Hs c Hc. unfold replaceAll in Hc.
  apply (replaceFrom_chars reSpaces oneSpace (fun c => c = sp)) in Hc.
  - destruct Hc as [->|Hc]; [reflexivity|apply Hs; exact Hc].
  - intros mt cs c' [H|[]]. symmetry. exact H.
Qed.

Lemma replaceAll_id (r : regex) (f : str -> list (nat * str) -> str) (s : str) :
  Requires special r -> plain s -> replaceAll r f s = s.
Proof.
  intros Hr Hs. unfold replaceAll. apply (replaceFrom_id special r f Hr). exact Hs.
Qed.

Lemma replaceFirst_id (r : regex) (f : str -> list (nat * str) -> str) (s : str) :
  Requires special r -> plain s -> replaceFirst r f s = s.
Proof.
  intros Hr Hs. unfold replaceFirst.
  apply (replaceFirstFrom_id special r f Hr). exact Hs.
Qed.

Lemma normalize_plain (s : str) :
  plain s -> normalize s = replaceAll reSpaces oneSpace s.
Proof.
  intros Hs. unfold normalize. cbv zeta.
  rewrite (replaceFirst_id _ _ _ requires_leadingTab Hs).
  rewrite (replaceAll_id _ _ _ requires_nlTab Hs).
  fold oneSpace. pose proof (collapse_plain s Hs) as Ho.
  rewrite (replaceAll_id _ _ _ requires_tag Ho).
  rewrite (replaceAll_id _ _ _ requires_tableAttrs Ho).
  rewrite (replaceAll_id _ _ _ requires_style Ho).
  rewrite (replaceAll_id _ _ _ requires_quoted Ho).
  rewrite (replaceAll_id _ _ _ requires_loneClose Ho).
  rewrite (replaceAll_id _ _ _ requires_cellClose Ho).
  reflexivity.
Qed.

(** C3 (idempotence of the normalizer), as the code has it: each rule is
    applied once, and a later rule can leave text that an earlier rule
    would change.  For a text without tab, [<], double quote, [|] and [!]
    the normalizer only collapses the runs of spaces, and normalizing
    twice gives what normalizing once gives. *)
Theorem normalize_idempotent_plain :
  forall s : string,
    plain (s2l s) ->
    normalizeWikitext (normalizeWikitext s) = normalizeWikitext s.
Proof.
  intros s Hs. unfold normalizeWikitext, s2l, l2s.
  rewrite list_ascii_of_string_of_list_ascii.
  fold (s2l s). rewrite (normalize_plain _ Hs).
  rewrite (normalize_plain _ (collapse_plain _ Hs)).
  f_equal. unfold replaceAll at 1. apply collapse_fixed.
  apply (collapse_noDouble _ _ None (le_n _)).
Qed.

End Rules.

Lemma normalize_idempotent_plain_witness :
  normalizeWikitext (normalizeWikitext "a  b   c") = normalizeWikitext "a  b   c".
Proof.
  apply (normalize_idempotent_plain "a  b   c").
  intros c Hc. simpl in Hc.
  repeat (destruct Hc as [Hc|Hc]; [subst c; reflexivity|]).
  contradiction.
Defined.

(** C3 as stated fails: the tag rule takes one blank off the end of what
    follows the tag name, and the slash it leaves makes the tag a void tag
    for the next run. *)
Lemma normalize_not_idempotent_counterexample :
  normalizeWikitext "<br / >" = "<br />"%string /\
  normalizeWikitext "<br />" = "<br>"%string /\
  normalizeWikitext (normalizeWikitext "<br / >") <> normalizeWikitext "<br / >".
Proof.
  repeat split; try (vm_compute; reflexivity).
  vm_compute. discriminate.
Qed.

(* ================================================================== *)
(** ** Further properties: the report formatters and the round trip     *)
(* ================================================================== *)

Import Report Pipeline Further.

Section Escaping.

Lemma exec_ch (c : ascii) (p : option ascii) (s : str) :
  exec (ch c) p s =
  match s with
  | x :: t => if Ascii.eqb c x then Some (1, []) else None
  | [] => None
  end.
Proof.
  unfold exec. rewrite m_ch. cbn [rest caps].
  destruct s as [|x t]; [reflexivity|].
  destruct (Ascii.eqb c x); [|reflexivity].
  cbn [rest caps length]. f_equal. f_equal. lia.
Qed.

Lemma replaceAll_ch (c : ascii) (rep : str) (s : str) :
  replaceAll (ch c) (fun _ _ => rep) s
  = flat_map (fun x => if Ascii.eqb c x then rep else [x]) s.
Proof.
  unfold replaceAll. generalize (@None ascii).
  induction s as [|x t IH]; intros p; cbn [replaceFrom flat_map];
    rewrite exec_ch; [reflexivity|].
  destruct (Ascii.eqb c x); rewrite IH; reflexivity.
Qed.

Lemma flat_map_flat_map {A B C} (f : A -> list B) (g : B -> list C) (l : list A) :
  flat_map g (flat_map f l) = flat_map (fun a => flat_map g (f a)) l.
Proof.
  induction l as [|a l IH]; [reflexivity|].
  cbn [flat_map]. rewrite flat_map_app, IH. reflexivity.
Qed.

Lemma encodeXmlEntities_flat_map (text : str) :
  encodeXmlEntities text = flat_map entityOf text.
Proof.
  unfold encodeXmlEntities. rewrite !replaceAll_ch, !flat_map_flat_map.
  apply flat_map_ext. intros c. unfold entityOf.
  destruct (Ascii.eqb "&" c) eqn:E1; [reflexivity|].
  cbn [flat_map app].
  destruct (Ascii.eqb "<" c) eqn:E2; [reflexivity|].
  cbn [flat_map app]. rewrite !app_nil_r. reflexivity.
Qed.

Lemma encodeAttribute_flat_map (text : str) :
  encodeAttribute text = flat_map attrEntityOf text.
Proof.
  unfold encodeAttribute. rewrite encodeXmlEntities_flat_map, replaceAll_ch,
    flat_map_flat_map.
  apply flat_map_ext. intros c. unfold attrEntityOf, entityOf.
  destruct (Ascii.eqb dq c) eqn:E0.
  - apply Ascii.eqb_eq in E0. subst c. reflexivity.
  - destruct (Ascii.eqb "&" c) eqn:E1; [reflexivity|].
    destruct (Ascii.eqb "<" c) eqn:E2; [reflexivity|].
    destruct (Ascii.eqb ">" c) eqn:E3; [reflexivity|].
    cbn [flat_map app]. rewrite E0. reflexivity.
Qed.

Lemma entityOf_chars (c x : ascii) :
  In x (entityOf c) -> x <> "<"%char /\ x <> ">"%char.
Proof.
  unfold entityOf.
  destruct (Ascii.eqb "&" c) eqn:E1;
    [|destruct (Ascii.eqb "<" c) eqn:E2; [|destruct (Ascii.eqb ">" c) eqn:E3]];
    cbn; intros H;
    repeat (destruct H as [H|H]; [subst x; split; discriminate|]);
    try contradiction.
  destruct H as [H|[]]. subst x. split; intros ->.
  - rewrite Ascii.eqb_refl in E2. discriminate.
  - rewrite Ascii.eqb_refl in E3. discriminate.
Qed.

(** X1.  The text that [encodeXmlEntities] returns holds no [<] and no
    [>], whatever text it is given. *)
Theorem encodeXmlEntities_no_markup :
  forall text : str,
    Forall (fun x => x <> "<"%char /\ x <> ">"%char) (encodeXmlEntities text).
Proof.
  intros text. apply Forall_forall. intros x.
  rewrite encodeXmlEntities_flat_map, in_flat_map.
  intros (c & _ & Hx). eapply entityOf_chars. exact Hx.
Qed.

Lemma entityOf_prefix_free (c1 c2 : ascii) (r1 r2 : str) :
  entityOf c1 ++ r1 = entityOf c2 ++ r2 -> c1 = c2 /\ r1 = r2.
Proof.
  unfold entityOf.
  destruct (Ascii.eqb "&" c1) eqn:A1; [apply Ascii.eqb_eq in A1; subst c1|];
    [|destruct (Ascii.eqb "<" c1) eqn:B1; [apply Ascii.eqb_eq in B1; subst c1|];
      [|destruct (Ascii.eqb ">" c1) eqn:C1; [apply Ascii.eqb_eq in C1; subst c1|]]];
    (destruct (Ascii.eqb "&" c2) eqn:A2; [apply Ascii.eqb_eq in A2; subst c2|];
     [|destruct (Ascii.eqb "<" c2) eqn:B2; [apply Ascii.eqb_eq in B2; subst c2|];
       [|destruct (Ascii.eqb ">" c2) eqn:C2; [apply Ascii.eqb_eq in C2; subst c2|]]]);
    cbn [s2l list_ascii_of_string app]; intros H;
    try (injection H as H; subst; auto; fail);
    try (injection H; intros; subst; try discriminate;
         try (rewrite Ascii.eqb_refl in *; discriminate); auto; fail).
Qed.

(** X2.  [encodeXmlEntities] loses nothing: two texts with the same
    encoding are the same text.  (The ampersand is replaced first, so that
    the ampersands of the entities are not encoded again.) *)
Theorem encodeXmlEntities_injective :
  forall a b : str, encodeXmlEntities a = encodeXmlEntities b -> a = b.
Proof.
  intros a b. rewrite !encodeXmlEntities_flat_map. revert b.
  induction a as [|c1 a IH]; intros [|c2 b]; cbn [flat_map]; intros H.
  - reflexivity.
  - exfalso. unfold entityOf in H.
    destruct (Ascii.eqb "&" c2); [discriminate|].
    destruct (Ascii.eqb "<" c2); [discriminate|].
    destruct (Ascii.eqb ">" c2); discriminate.
  - exfalso. unfold entityOf in H.
    destruct (Ascii.eqb "&" c1); [discriminate|].
    destruct (Ascii.eqb "<" c1); [discriminate|].
    destruct (Ascii.eqb ">" c1); discriminate.
  - apply entityOf_prefix_free in H. destruct H as [-> H].
    f_equal. apply IH. exact H.
Qed.

(** X3.  The text that [encodeAttribute] returns holds no [<], no [>]
    and no double quote: it can stand between the quotes of an attribute. *)
Theorem encodeAttribute_no_markup :
  forall text : str,
    Forall (fun x => x <> "<"%char /\ x <> ">"%char /\ x <> dq)
           (encodeAttribute text).
Proof.
  intros text. apply Forall_forall. intros x.
  rewrite encodeAttribute_flat_map, in_flat_map.
  intros (c & _ & Hx). unfold attrEntityOf in Hx.
  destruct (Ascii.eqb dq c) eqn:E0.
  - cbn in Hx.
    repeat (destruct Hx as [Hx|Hx]; [subst x; repeat split; discriminate|]).
    contradiction.
  - pose proof (entityOf_chars c x Hx) as [H1 H2]. repeat split; auto.
    intros ->. unfold entityOf in Hx.
    destruct (Ascii.eqb "&" c);
      [|destruct (Ascii.eqb "<" c); [|destruct (Ascii.eqb ">" c)]];
      cbn in Hx;
      repeat (destruct Hx as [Hx|Hx]; [try discriminate Hx|]);
      try contradiction.
    subst c. rewrite Ascii.eqb_refl in E0. discriminate.
Qed.

(** X14.  The text that [htmlSpecialChars] returns holds no [<], no
    double quote and no single quote ([>] is left as it is). *)
Theorem htmlSpecialChars_no_markup :
  forall text : str,
    Forall (fun x => x <> "<"%char /\ x <> dq /\ x <> "'"%char)
           (htmlSpecialChars text).
Proof.
  intros text. apply Forall_forall. intros x. unfold htmlSpecialChars.
  rewrite !replaceAll_ch, !flat_map_flat_map, in_flat_map.
  intros (c & _ & Hx). revert Hx.
  destruct (Ascii.eqb "&" c) eqn:E1.
  { cbn. intros Hx.
    repeat (destruct Hx as [Hx|Hx]; [subst x; repeat split; discriminate|]).
    contradiction. }
  cbn [flat_map app].
  destruct (Ascii.eqb "<" c) eqn:E2.
  { cbn. intros Hx.
    repeat (destruct Hx as [Hx|Hx]; [subst x; repeat split; discriminate|]).
    contradiction. }
  cbn [flat_map app].
  destruct (Ascii.eqb dq c) eqn:E3.
  { cbn. intros Hx.
    repeat (destruct Hx as [Hx|Hx]; [subst x; repeat split; discriminate|]).
    contradiction. }
  cbn [flat_map app].
  destruct (Ascii.eqb "'" c) eqn:E4.
  { cbn. intros Hx.
    repeat (destruct Hx as [Hx|Hx]; [subst x; repeat split; discriminate|]).
    contradiction. }
  cbn. intros [Hx|[]]. subst x. repeat split; intros ->.
  - rewrite Ascii.eqb_refl in E2. discriminate.
  - rewrite Ascii.eqb_refl in E3. discriminate.
  - rewrite Ascii.eqb_refl in E4. discriminate.
Qed.

End Escaping.

Section Texts.

Lemma exec_blankLine (p : option ascii) (s : str) :
  exec reBlankLine p s =
  match s with
  | x :: t => if Ascii.eqb nl x && headIs nl t then Some (1, []) else None
  | [] => None
  end.
Proof.
  unfold exec, reBlankLine.
  change (m (Seq (ch nl) (Look true (ch nl))) (MState p s []) (fun y => Some y))
    with (m (ch nl) (MState p s [])
            (fun y => match m (ch nl) y (fun y' => Some y') with
                      | Some y' => Some (MState (prev y) (rest y) (caps y'))
                      | None => None
                      end)).
  rewrite m_ch. cbn [rest caps].
  destruct s as [|x t]; [reflexivity|].
  destruct (Ascii.eqb nl x); [|reflexivity].
  rewrite m_ch. cbn [rest caps prev andb headIs].
  destruct t as [|y t']; [reflexivity|]. cbn [headIs].
  destruct (Ascii.eqb nl y); [|reflexivity].
  cbn [rest caps length]. f_equal. f_equal. lia.
Qed.

Lemma padBlankLines_from :
  forall s p,
    noPair nl (replaceFrom reBlankLine (fun _ _ => [nl; sp]) p s 0) = true /\
    headIs nl (replaceFrom reBlankLine (fun _ _ => [nl; sp]) p s 0) = headIs nl s.
Proof.
  induction s as [|x t IH]; intros p; cbn [replaceFrom];
    rewrite exec_blankLine; [split; reflexivity|].
  destruct (IH (Some x)) as [Hn Hh].
  destruct (Ascii.eqb nl x && headIs nl t) eqn:E.
  - apply andb_true_iff in E. destruct E as [Ex Et].
    cbn [app noPair headIs]. rewrite Hn, Ex.
    replace (Ascii.eqb nl sp) with false by reflexivity.
    cbn [andb negb]. auto.
  - cbn [noPair headIs]. rewrite Hn, Hh, E. auto.
Qed.

(** X8.  After [fetch] has put a blank behind every newline that another
    newline follows, the text has no two newlines in a row. *)
Theorem padBlankLines_no_blank_line :
  forall wt : str, noPair nl (padBlankLines wt) = true.
Proof.
  intros wt. unfold padBlankLines, replaceAll. apply padBlankLines_from.
Qed.

(* ---- the selser comment ---- *)

Lemma m_litl_sound (cs : str) :
  forall x k z, m (litl cs) x k = Some z ->
                exists y, k y = Some z /\ rest x = cs ++ rest y.
Proof.
  induction cs as [|c cs IH]; intros x k z; cbn [litl m].
  - intros H. exists x. auto.
  - rewrite m_ch. destruct (rest x) as [|a t] eqn:E; [discriminate|].
    destruct (Ascii.eqb c a) eqn:Ec; [|discriminate].
    apply Ascii.eqb_eq in Ec. subst a. intros H. apply IH in H.
    destruct H as (y & Hk & Hr). cbn [rest] in Hr. exists y. split; [exact Hk|].
    rewrite Hr. reflexivity.
Qed.

Lemma m_litl_complete (cs : str) :
  forall x k t, rest x = cs ++ t ->
                exists p', m (litl cs) x k = k (MState p' t (caps x)).
Proof.
  induction cs as [|c cs IH]; intros x k t Hx; cbn [litl m].
  - destruct x as [p r c0]. cbn in *. subst r. exists p. reflexivity.
  - rewrite m_ch, Hx. cbn [app]. rewrite Ascii.eqb_refl.
    destruct (IH (MState (Some c) (cs ++ t) (caps x)) k t eq_refl) as (p' & Hp').
    exists p'. exact Hp'.
Qed.

Lemma starLoop_nl_sound (k : cont) :
  forall n x z, starLoop (m (ch nl)) true k n x = Some z ->
                exists y j, k y = Some z /\ rest x = repeat nl j ++ rest y.
Proof.
  induction n as [|n IH]; intros x z.
  - cbn [starLoop]. intros H. exists x, 0. auto.
  - rewrite starLoop_greedy_S, m_ch.
    destruct (rest x) as [|a t] eqn:E.
    + intros H. exists x, 0. rewrite E. auto.
    + destruct (Ascii.eqb nl a) eqn:Ea.
      * cbn [rest]. destruct (length t <? length (a :: t)).
        -- destruct (starLoop (m (ch nl)) true k n _) as [v|] eqn:Hs.
           ++ intros H; inversion H; subst. apply IH in Hs.
              destruct Hs as (y & j & Hk & Hr). cbn [rest] in Hr.
              exists y, (S j). split; [exact Hk|].
              apply Ascii.eqb_eq in Ea. subst a. rewrite Hr. reflexivity.
           ++ intros H. exists x, 0. rewrite E. auto.
        -- intros H. exists x, 0. rewrite E. auto.
      * intros H. exists x, 0. rewrite E. auto.
Qed.

Lemma starLoop_nl_complete :
  forall j n p cs, j < n ->
    exists y, starLoop (m (ch nl)) true (fun y => m Eol y (fun z => Some z)) n
                (MState p (repeat nl j) cs) = Some y /\ rest y = [] /\ caps y = cs.
Proof.
  induction j as [|j IH]; intros n p cs Hn; destruct n as [|n]; try lia;
    rewrite starLoop_greedy_S, m_ch; cbn [rest repeat caps].
  - eexists. cbn [m rest]. split; [reflexivity|]. auto.
  - rewrite Ascii.eqb_refl. cbn [rest length].
    replace (length (repeat nl j) <? S (length (repeat nl j))) with true
      by (symmetry; apply Nat.ltb_lt; lia).
    destruct (IH n (Some nl) cs) as (y & Hy & Hr & Hc); [lia|].
    rewrite Hy. exists y. auto.
Qed.

Lemma exec_selser_sound (p : option ascii) (s : str) (r : nat * list (nat * str)) :
  exec reSelserComment p s = Some r ->
  exists j, s = selserComment ++ repeat nl j.
Proof.
  unfold exec, reSelserComment. cbn [m].
  destruct (m (litl selserComment) _ _) as [z|] eqn:H; [|discriminate].
  intros _. apply m_litl_sound in H. destruct H as (y & Hk & Hr).
  apply starLoop_nl_sound in Hk. destruct Hk as (y' & j & Hk & Hr').
  cbn [m] in Hk. destruct (rest y') eqn:E; [|discriminate].
  exists j. cbn [rest] in Hr. rewrite Hr, Hr', app_nil_r. reflexivity.
Qed.

Lemma exec_selser_complete (p : option ascii) (j : nat) :
  exec reSelserComment p (selserComment ++ repeat nl j)
  = Some (length (selserComment ++ repeat nl j), []).
Proof.
  unfold exec, reSelserComment.
  change (m (Seq (litl selserComment) (Seq (Star true (ch nl)) Eol))
            (MState p (selserComment ++ repeat nl j) []) (fun y => Some y))
    with (m (litl selserComment) (MState p (selserComment ++ repeat nl j) [])
            (fun y => starLoop (m (ch nl)) true
                        (fun y0 => m Eol y0 (fun z => Some z))
                        (S (length (rest y))) y)).
  destruct (m_litl_complete selserComment
              (MState p (selserComment ++ repeat nl j) [])
              (fun y => starLoop (m (ch nl)) true
                          (fun y0 => m Eol y0 (fun z => Some z))
                          (S (length (rest y))) y)
              (repeat nl j) eq_refl) as (p' & Hp').
  rewrite Hp'. cbn [rest caps].
  destruct (starLoop_nl_complete j (S (length (repeat nl j))) p' [])
    as (y & Hy & Hr & Hc).
  { rewrite repeat_length. lia. }
  rewrite Hy, Hr, Hc. cbn [length]. rewrite Nat.sub_0_r. reflexivity.
Qed.

Lemma count_lt_comment_tail (j : nat) :
  count_occ ascii_dec (selserComment ++ repeat nl j) "<"%char = 1.
Proof.
  rewrite count_occ_app.
  replace (count_occ ascii_dec selserComment "<"%char) with 1 by reflexivity.
  assert (H : count_occ ascii_dec (repeat nl j) "<"%char = 0).
  { apply count_occ_not_In. intros Hin. apply repeat_spec in Hin. discriminate. }
  rewrite H. reflexivity.
Qed.

Lemma exec_selser_inside (p : option ascii) (c : ascii) (w : str) (k : nat) :
  exec reSelserComment p ((c :: w) ++ selserComment ++ repeat nl k) = None.
Proof.
  destruct (exec reSelserComment p _) as [r|] eqn:H; [|reflexivity].
  exfalso. apply exec_selser_sound in H. destruct H as (j & Hj).
  assert (Hc : c = "<"%char).
  { cbn in Hj. injection Hj as Hc _. exact Hc. }
  assert (Hcount : count_occ ascii_dec ((c :: w) ++ selserComment ++ repeat nl k) "<"%char
                   = count_occ ascii_dec (selserComment ++ repeat nl j) "<"%char)
    by (rewrite Hj; reflexivity).
  rewrite count_lt_comment_tail in Hcount.
  rewrite count_occ_app, count_lt_comment_tail in Hcount. subst c.
  rewrite count_occ_cons_eq in Hcount by reflexivity. lia.
Qed.

(** X9.  Removing the selser trigger comment undoes appending it: for any
    text, with any number of newlines after the comment, what is left is
    the text. *)
Theorem stripSelserComment_appended :
  forall (wt : str) (k : nat),
    stripSelserComment (wt ++ selserComment ++ repeat nl k) = wt.
Proof.
  intros wt k. unfold stripSelserComment, replaceFirst.
  generalize (@None ascii).
  induction wt as [|c w IH]; intros p.
  - cbn [app]. destruct (selserComment ++ repeat nl k) as [|a t] eqn:E.
    + discriminate E.
    + cbn [replaceFirstFrom]. rewrite <- E, exec_selser_complete.
      rewrite skipn_all. reflexivity.
  - change ((c :: w) ++ selserComment ++ repeat nl k)
      with (c :: (w ++ selserComment ++ repeat nl k)).
    cbn [replaceFirstFrom].
    change (c :: (w ++ selserComment ++ repeat nl k))
      with ((c :: w) ++ selserComment ++ repeat nl k).
    rewrite exec_selser_inside. rewrite IH. reflexivity.
Qed.

(* ---- the request URI ---- *)

Lemma exec_trailingSlash (p : option ascii) (s : str) :
  exec reTrailingSlash p s =
  match s with
  | [x] => if Ascii.eqb "/" x then Some (1, []) else None
  | _ => None
  end.
Proof.
  unfold exec, reTrailingSlash.
  change (m (Seq (ch "/") Eol) (MState p s []) (fun y => Some y))
    with (m (ch "/") (MState p s []) (fun y => m Eol y (fun z => Some z))).
  rewrite m_ch. cbn [rest caps].
  destruct s as [|x t]; [reflexivity|].
  destruct (Ascii.eqb "/" x); [|destruct t; reflexivity].
  cbn [m rest]. destruct t; reflexivity.
Qed.

Lemma test_trailingSlash_snoc (u : str) :
  forall p, testFrom reTrailingSlash p (u ++ ["/"%char]) = true.
Proof.
  induction u as [|c u IH]; intros p; cbn [app testFrom];
    rewrite exec_trailingSlash.
  - rewrite Ascii.eqb_refl. reflexivity.
  - destruct u as [|d u']; cbn [app] in *; exact (IH (Some c)).
Qed.

Lemma test_trailingSlash_true (s : str) :
  forall p, testFrom reTrailingSlash p s = true -> exists u, s = u ++ ["/"%char].
Proof.
  induction s as [|c t IH]; intros p; cbn [testFrom]; rewrite exec_trailingSlash.
  - discriminate.
  - destruct t as [|d t'].
    + destruct (Ascii.eqb "/" c) eqn:E.
      * intros _. apply Ascii.eqb_eq in E. subst c. exists []. reflexivity.
      * cbn [testFrom]. rewrite exec_trailingSlash. discriminate.
    + intros H. apply IH in H. destruct H as (u & Hu).
      exists (c :: u). rewrite Hu. reflexivity.
Qed.

End Texts.

Section Uri.

Variable encodeURIComponent : string -> string.

Lemma s2l_app (a b : string) : s2l (a ++ b) = s2l a ++ s2l b.
Proof.
  unfold s2l. induction a as [|c a IH]; [reflexivity|].
  cbn. rewrite IH. reflexivity.
Qed.

(** X13.  A Parsoid URI with and without its final slash give the same
    request URI. *)
Theorem requestUri_trailing_slash :
  forall (u d t : string) (h : bool) (o : Z),
    (forall v, s2l u <> v ++ ["/"%char]) ->
    requestUri encodeURIComponent (mkPostOptions (u ++ "/") d t h o)
    = requestUri encodeURIComponent (mkPostOptions u d t h o).
Proof.
  intros u d t h o Hu. unfold requestUri.
  cbn [uri domain title html2wt oldid].
  rewrite s2l_app.
  replace (test reTrailingSlash (s2l u ++ s2l "/")) with true
    by (symmetry; apply test_trailingSlash_snoc).
  replace (test reTrailingSlash (s2l u)) with false; [reflexivity|].
  symmetry. apply not_true_is_false. intros H.
  apply test_trailingSlash_true in H. destruct H as (v & Hv).
  exact (Hu v Hv).
Qed.

End Uri.

Section LeadingTab.

Lemma exec_leadingTab (p : option ascii) (s : str) :
  exec reLeadingTab p s =
  match p, s with
  | None, x :: _ => if Ascii.eqb tab x then Some (1, []) else None
  | _, _ => None
  end.
Proof.
  unfold exec, reLeadingTab.
  change (m (Seq Bol (ch tab)) (MState p s []) (fun y => Some y))
    with (match prev (MState p s []) with
          | None => m (ch tab) (MState p s []) (fun y => Some y)
          | Some _ => None
          end).
  cbn [prev]. destruct p; [destruct s; reflexivity|].
  rewrite m_ch. cbn [rest caps]. destruct s as [|x t]; [reflexivity|].
  destruct (Ascii.eqb tab x); [|reflexivity].
  cbn [rest caps length]. f_equal. f_equal. lia.
Qed.

Lemma replaceFirstFrom_leadingTab_later (f : str -> list (nat * str) -> str) :
  forall s c, replaceFirstFrom reLeadingTab f (Some c) s = s.
Proof.
  induction s as [|x t IH]; intros c; cbn [replaceFirstFrom];
    rewrite exec_leadingTab; [reflexivity|].
  rewrite IH. reflexivity.
Qed.

(** X15.  A leading tab and a leading space are the same to the
    normalizer. *)
Theorem normalize_leading_tab :
  forall s : string,
    normalizeWikitext (String tab s) = normalizeWikitext (String sp s).
Proof.
  intros s. unfold normalizeWikitext. f_equal.
  unfold normalize. cbv zeta.
  assert (H : replaceFirst reLeadingTab (fun _ _ => [sp]) (s2l (String tab s))
              = replaceFirst reLeadingTab (fun _ _ => [sp]) (s2l (String sp s))).
  { unfold replaceFirst, s2l. cbn [list_ascii_of_string replaceFirstFrom].
    rewrite !exec_leadingTab. rewrite Ascii.eqb_refl.
    replace (Ascii.eqb tab sp) with false by reflexivity.
    rewrite replaceFirstFrom_leadingTab_later. reflexivity. }
  rewrite H. reflexivity.
Qed.

End LeadingTab.

Local Open Scope Z_scope.

Section ClassifierMore.

Variable decodedCommentLength : Node -> Z.
Variable skipped : Node -> list Node -> nat.
Variable outerHTML : Node -> string.
Variable normalizeOutBody : Node -> string.
Variable normalizeOut : string -> string.
Variable serializeNode : Node -> string.
Variable formatHTML : string -> string.
Variable diffHtml : string -> string -> string.

Local Abbreviation check :=
  (checkIfSignificant decodedCommentLength skipped outerHTML normalizeOutBody
     normalizeOut serializeNode formatHTML diffHtml).
Local Abbreviation classifyOne :=
  (classifyOffset decodedCommentLength skipped normalizeOut serializeNode
     formatHTML diffHtml).
Local Abbreviation full :=
  (fullDiffs decodedCommentLength skipped normalizeOut serializeNode
     formatHTML diffHtml).
Local Abbreviation render1 :=
  (renderMatch decodedCommentLength skipped normalizeOut serializeNode
     formatHTML).

Lemma Adjusted_refl (h : Heap) : Adjusted h h.
Proof. intros a. auto. Qed.

Lemma Adjusted_trans (h1 h2 h3 : Heap) :
  Adjusted h1 h2 -> Adjusted h2 h3 -> Adjusted h1 h3.
Proof.
  intros H12 H23 a. destruct (H12 a) as [E12 S12]. destruct (H23 a) as [E23 S23].
  split; [congruence|]. lia.
Qed.

Lemma adjusted_Adjusted (data : Data) (h : Heap) (offset : OffsetPair) :
  Adjusted h (adjusted data h offset).
Proof.
  unfold adjusted. destruct (implicitlyClosed _ _ _) eqn:E; [|apply Adjusted_refl].
  unfold implicitlyClosed in E. apply andb_true_iff in E. destruct E as [E _].
  apply Z.eqb_eq in E. intros a.
  destruct (Nat.eq_dec a (fst offset)) as [->|Hne].
  - rewrite update_same. cbn [start end_]. split; [reflexivity|]. right. auto.
  - rewrite update_other by exact Hne. auto.
Qed.

Lemma fullDiffs_Adjusted (data : Data) (offsets : list OffsetPair) :
  forall w results w',
    full data offsets w = Normal results w' -> Adjusted (heap w) (heap w').
Proof.
  induction offsets as [|o more IH]; intros w results w'; cbn [fullDiffs].
  - intros H; inversion H; subst. apply Adjusted_refl.
  - destruct (classifyOne data o w) as [r w1|e] eqn:Hone; [|discriminate].
    destruct (full data more w1) as [rs w2|e] eqn:Hrest; [|discriminate].
    intros H; inversion H; subst.
    destruct (classifyOffset_inv _ _ _ _ _ _ _ _ _ _ _ Hone) as (_ & Hh & _).
    eapply Adjusted_trans; [|eapply IH; exact Hrest].
    rewrite Hh. apply adjusted_Adjusted.
Qed.

(** X5.  The only thing [checkIfSignificant] writes to the spans is the
    implicit-close adjustment: no end moves, and a start stays or, on a
    span that was empty, goes down by one; this also holds when offset
    pairs share span objects. *)
Theorem spans_only_adjusted :
  forall (offsets : list OffsetPair) (data : Data) (w w' : World)
         (results : list DiffResult),
    check offsets data w = Normal results w' ->
    Adjusted (heap w) (heap w').
Proof.
  intros offsets data w w' results. unfold checkIfSignificant.
  destruct (negb _); [destruct (String.eqb _ _)|];
    try (apply fullDiffs_Adjusted).
  intros H; inversion H; subst. apply Adjusted_refl.
Qed.

Lemma classifyOffset_calls (data : Data) (offset : OffsetPair) (w w' : World)
      (r : DiffResult) :
  classifyOne data offset w = Normal r w' ->
  exists t1 t2 a b,
    calls w' = calls w ++
               [CallFindMatchingNodes (oldBody data) t1 (jsLength (oldWt data));
                CallFindMatchingNodes (newBody data) t2 (jsLength (newWt data));
                CallHtmlDiff a b].
Proof.
  unfold classifyOffset.
  destruct (render1 (oldBody data) _ _ _) as [origHTML w2|e] eqn:H1; [|discriminate].
  destruct (render1 (newBody data) _ _ w2) as [newHTML w3|e] eqn:H2; [|discriminate].
  destruct (renderMatch_heap _ _ _ _ _ _ _ _ _ _ _ H1) as [_ Hc2].
  destruct (renderMatch_heap _ _ _ _ _ _ _ _ _ _ _ H2) as [_ Hc3].
  cbn [calls] in Hc2.
  destruct (_ && _); intros H; inversion H; subst; cbn [calls];
    rewrite Hc3, Hc2, <- !app_assoc; cbn [app];
    eexists _, _, _, _; reflexivity.
Qed.

Lemma fullDiffs_calls (data : Data) (offsets : list OffsetPair) :
  forall w results w',
    full data offsets w = Normal results w' ->
    exists cs,
      calls w' = calls w ++ cs /\
      CallTriples data (length offsets) cs /\
      length cs = (3 * length offsets)%nat /\
      length (filter isHtmlDiffCall cs) = length offsets.
Proof.
  induction offsets as [|o more IH]; intros w results w'; cbn [fullDiffs].
  - intros H; inversion H; subst. exists []. rewrite app_nil_r.
    repeat split; reflexivity.
  - destruct (classifyOne data o w) as [r w1|e] eqn:Hone; [|discriminate].
    destruct (full data more w1) as [rs w2|e] eqn:Hrest; [|discriminate].
    intros H; inversion H; subst.
    destruct (classifyOffset_calls _ _ _ _ _ Hone) as (t1 & t2 & a & b & Hc).
    destruct (IH _ _ _ Hrest) as (cs & Hcs & Htr & Hlen & Hcount).
    eexists (_ :: _ :: _ :: cs). split; [|split; [|split]].
    + rewrite Hcs, Hc, <- app_assoc. reflexivity.
    + cbn [length CallTriples]. exists t1, t2, a, b, cs. split; [reflexivity|exact Htr].
    + cbn [length]. rewrite Hlen. lia.
    + cbn [filter isHtmlDiffCall length]. rewrite Hcount. reflexivity.
Qed.

(** X6.  The calls of [findMatchingNodes] and of the HTML differ that
    [checkIfSignificant] makes: none on the quick path, that is when the
    old document is not fostered and the normalized HTML of the two
    documents is the same; otherwise, for every offset pair in turn,
    [findMatchingNodes] on the old body, [findMatchingNodes] on the new
    body and then the HTML differ, so three calls for each pair and as
    many HTML diffs as pairs. *)
Theorem calls_all_or_none :
  forall (offsets : list OffsetPair) (data : Data) (w w' : World)
         (results : list DiffResult),
    check offsets data w = Normal results w' ->
    exists cs,
      calls w' = calls w ++ cs /\
      if negb (fostered outerHTML (oldBody data))
         && String.eqb (normalizeOutBody (oldBody data))
                       (normalizeOutBody (newBody data))
      then cs = []
      else
        CallTriples data (length offsets) cs /\
        length cs = (3 * length offsets)%nat /\
        length (filter isHtmlDiffCall cs) = length offsets.
Proof.
  intros offsets data w w' results. unfold checkIfSignificant.
  destruct (negb _); [destruct (String.eqb _ _)|]; cbn [andb].
  - intros H; inversion H; subst. exists []. rewrite app_nil_r. auto.
  - intros H. destruct (fullDiffs_calls _ _ _ _ _ H) as (cs & Hc & Hrest).
    exists cs. auto.
  - intros H. destruct (fullDiffs_calls _ _ _ _ _ H) as (cs & Hc & Hrest).
    exists cs. auto.
Qed.

End ClassifierMore.

Section FormatDiff.

Lemma firstn_add {A} (n k : nat) (l : list A) :
  firstn (n + k) l = firstn n l ++ firstn k (skipn n l).
Proof.
  revert l. induction n as [|n IH]; intros l; [reflexivity|].
  destruct l as [|x l]; cbn [Nat.add firstn skipn app].
  - rewrite firstn_nil. reflexivity.
  - rewrite IH. reflexivity.
Qed.

Lemma slice_split {A} (i j k : nat) (l : list A) :
  (i <= j)%nat -> (j <= k)%nat ->
  firstn (k - i) (skipn i l)
  = firstn (j - i) (skipn i l) ++ firstn (k - j) (skipn j l).
Proof.
  intros Hij Hjk.
  replace (k - i)%nat with ((j - i) + (k - j))%nat by lia.
  rewrite firstn_add, skipn_skipn.
  replace (j - i + i)%nat with j by lia. reflexivity.
Qed.

Lemma substring_context (s : str) (a b c : Z) :
  a <= b -> 0 <= c ->
  exists pre post,
    substring s (a - c) (b + c) = pre ++ substring s a b ++ post /\
    Z.of_nat (length pre) <= c /\ Z.of_nat (length post) <= c.
Proof.
  intros Hab Hc. unfold substring, clamp.
  set (len := Z.of_nat (length s)).
  assert (Hlen : 0 <= len) by (unfold len; lia).
  rewrite !(Z.min_l (Z.min (Z.max (a - c) 0) len) (Z.min (Z.max (b + c) 0) len)) by lia.
  rewrite !(Z.max_r (Z.min (Z.max (a - c) 0) len) (Z.min (Z.max (b + c) 0) len)) by lia.
  rewrite !(Z.min_l (Z.min (Z.max a 0) len) (Z.min (Z.max b 0) len)) by lia.
  rewrite !(Z.max_r (Z.min (Z.max a 0) len) (Z.min (Z.max b 0) len)) by lia.
  set (lo := Z.min (Z.max (a - c) 0) len).
  set (hi := Z.min (Z.max (b + c) 0) len).
  set (a' := Z.min (Z.max a 0) len).
  set (b' := Z.min (Z.max b 0) len).
  assert (H1 : 0 <= lo <= a') by (unfold lo, a'; lia).
  assert (H2 : a' <= b') by (unfold a', b'; lia).
  assert (H3 : b' <= hi) by (unfold b', hi; lia).
  assert (H4 : a' - lo <= c) by (unfold lo, a'; lia).
  assert (H5 : hi - b' <= c) by (unfold hi, b'; lia).
  exists (firstn (Z.to_nat a' - Z.to_nat lo) (skipn (Z.to_nat lo) s)),
         (firstn (Z.to_nat hi - Z.to_nat b') (skipn (Z.to_nat b') s)).
  split; [|split].
  - replace (Z.to_nat (hi - lo)) with (Z.to_nat hi - Z.to_nat lo)%nat by lia.
    replace (Z.to_nat (b' - a')) with (Z.to_nat b' - Z.to_nat a')%nat by lia.
    rewrite (slice_split (Z.to_nat lo) (Z.to_nat a') (Z.to_nat hi)) by lia.
    rewrite (slice_split (Z.to_nat a') (Z.to_nat b') (Z.to_nat hi)) by lia.
    reflexivity.
  - rewrite length_firstn. lia.
  - rewrite length_firstn. lia.
Qed.

(** X4.  With a context that is not negative and spans that are in order,
    the two excerpts of [formatDiff] are the excerpts without context with
    at most [context] code units in front and behind: near an end of the
    text the context is cut, it never wraps around. *)
Theorem formatDiff_context :
  forall (oldWt newWt : string) (h : Heap) (offset : OffsetPair) (context : Z),
    0 <= context ->
    start (h (fst offset)) <= end_ (h (fst offset)) ->
    start (h (snd offset)) <= end_ (h (snd offset)) ->
    exists pre1 post1 pre2 post2,
      formatDiff oldWt newWt h offset context
      = l2s (s2l "----" ++ [nl] ++
             pre1 ++
             substring (s2l oldWt) (start (h (fst offset))) (end_ (h (fst offset))) ++
             post1 ++ [nl] ++ s2l "++++" ++ [nl] ++
             pre2 ++
             substring (s2l newWt) (start (h (snd offset))) (end_ (h (snd offset))) ++
             post2) /\
      Z.of_nat (length pre1) <= context /\ Z.of_nat (length post1) <= context /\
      Z.of_nat (length pre2) <= context /\ Z.of_nat (length post2) <= context.
Proof.
  intros oldWt newWt h offset context Hc H0 H1. unfold formatDiff. cbv zeta.
  destruct (substring_context (s2l oldWt) _ _ context H0 Hc)
    as (pre1 & post1 & E1 & L1 & L1').
  destruct (substring_context (s2l newWt) _ _ context H1 Hc)
    as (pre2 & post2 & E2 & L2 & L2').
  exists pre1, post1, pre2, post2. rewrite E1, E2.
  repeat split; try assumption.
  f_equal. rewrite <- !app_assoc. reflexivity.
Qed.

End FormatDiff.

Section MatcherMore.

Variable targetRange : Range.
Variable sourceLen : Z.
Variable decodedCommentLength : Node -> Z.
Variable skipped : Node -> list Node -> nat.

Local Abbreviation walk := (walkDOM targetRange sourceLen decodedCommentLength skipped).
Local Abbreviation scan := (scanChildren targetRange decodedCommentLength skipped).

Section Scan.

Variable Q : Node -> Prop.
Variable w : Node -> M (option MatchResult).
Variable attribs : DataParsoid.

(** The nodes of a result of [w] on [c] satisfy [Q]. *)
Local Abbreviation Sound :=
  (fun c : Node =>
     forall st r st', w c st = Ok (Some r) st' -> Forall Q (nodes r)).

Lemma popPreceding_Forall (stack : list Node) :
  Forall Q stack ->
  forall diff, Forall Q (popPreceding decodedCommentLength stack diff).
Proof.
  induction 1 as [|n stack Hn Hs IH]; intros diff; cbn [popPreceding];
    [constructor|].
  destruct (diff >? 0); [|constructor].
  destruct (_ >? diff); [constructor|]. constructor; auto.
Qed.

Lemma visitElement_Forall (c : Node) (els prec : list Node)
      (st st' : MatchState) (f : Flow (option MatchResult) (list Node * list Node)) :
  Sound c -> Q c -> Forall Q els -> Forall Q prec ->
  visitElement targetRange decodedCommentLength w attribs c els prec st = Ok f st' ->
  match f with
  | Return (Some r) => Forall Q (nodes r)
  | Return None => True
  | Next (els', prec') => Forall Q els' /\ Forall Q prec'
  end.
Proof.
  intros Hs Hc Hels Hprec. unfold visitElement, bind.
  destruct (w c st) as [[r0|] st0|e] eqn:Hw; [| |discriminate].
  - apply Hs in Hw. unfold get.
    match goal with
    | |- context [match ?x with Ok _ _ => _ | Throw _ => _ end] =>
        destruct x as [mc st1|e1] eqn:Hmc
    end; [|discriminate].
    assert (Hq : Forall Q mc).
    { revert Hmc. destruct (dsr attribs) as [[[d0|] d1]|];
        unfold ret, bind, setCurrentOffset.
      - destruct (negb _); intros H; inversion H; subst; auto.
        apply Forall_app. split; [|exact Hw].
        apply Forall_rev. apply popPreceding_Forall. apply Forall_rev. exact Hprec.
      - intros H; inversion H; subst; auto.
      - intros H; inversion H; subst; auto. }
    destruct (checkSingleChild targetRange mc (done r0) st1) as [b st2|e2];
      [|discriminate].
    destruct b; unfold ret; intros H; inversion H; subst; cbn [nodes]; auto.
  - unfold get, ret. destruct (_ || _); intros H; inversion H; subst; split; auto.
    apply Forall_app. split; auto.
Qed.

Lemma visitLeaf_Forall (c : Node) (els prec els' prec' : list Node)
      (st st' : MatchState) :
  Q c -> Forall Q els -> Forall Q prec ->
  visitLeaf targetRange decodedCommentLength c els prec st = Ok (els', prec') st' ->
  Forall Q els' /\ Forall Q prec'.
Proof.
  intros Hc Hels Hprec.
  unfold visitLeaf, bind, get, ret, setCurrentOffset, setWaitingForEndMatch.
  destruct (currentOffset st) as [off|] eqn:Hoff;
    [destruct (truthy (Some off) && (off <? end_ targetRange));
       [destruct (off + nodeLen decodedCommentLength c >=? end_ targetRange)|]|];
    cbn [wasWaiting waitingForEndMatch currentOffset];
    repeat match goal with
           | |- context [if ?b then _ else _] => destruct b
           end;
    intros H; inversion H; subst; split; auto;
    apply Forall_app; split; auto.
Qed.

Lemma scanChildren_Forall (cs : list Node) :
  Forall Sound cs -> Forall Q cs ->
  forall skip els prec st f st',
    Forall Q els -> Forall Q prec ->
    scan w attribs cs skip els prec st = Ok f st' ->
    match f with
    | Return (Some r) => Forall Q (nodes r)
    | Return None => True
    | Next els' => Forall Q els'
    end.
Proof.
  induction 1 as [|c cs Hc Hcs IH]; intros Hq skip els prec st f st' Hels Hprec.
  - cbn [scanChildren]. unfold ret. intros H; inversion H; subst. exact Hels.
  - inversion Hq as [|? ? Hqc Hqcs]; subst.
    destruct skip as [|k]; [|cbn [scanChildren]; apply IH; assumption].
    rewrite scanChildren_cons.
    destruct (isElt c).
    + destruct (visitElement _ _ _ _ _ _ _ _) as [[res|[els' prec']] st1|e] eqn:Hv;
        [| |discriminate].
      * intros H; inversion H; subst.
        apply (visitElement_Forall _ _ _ _ _ _ Hc Hqc Hels Hprec Hv).
      * pose proof (visitElement_Forall _ _ _ _ _ _ Hc Hqc Hels Hprec Hv) as [He Hp].
        destruct (_ && _); [intros H; inversion H; subst; exact He|].
        apply IH; assumption.
    + unfold bind at 1.
      destruct (visitLeaf _ _ _ _ _ _) as [[els' prec'] st1|e] eqn:Hv; [|discriminate].
      unfold ret at 1.
      pose proof (visitLeaf_Forall _ _ _ _ _ _ _ Hqc Hels Hprec Hv) as [He Hp].
      destruct (_ && _); [intros H; inversion H; subst; exact He|].
      apply IH; assumption.
Qed.

End Scan.

Lemma Within_child (n c : Node) (a : Attrs) (cs : list Node) :
  In c cs -> Within n c -> Within n (Elt a cs).
Proof. intros Hin Hw. eapply WithinChild; eassumption. Qed.

(** X7.  Every node that [walkDOM] returns is the element it was called
    on or a node below it. *)
Theorem matched_nodes_within (element : Node) :
  forall (st : MatchState) (r : MatchResult) (st' : MatchState),
    walk element st = Ok (Some r) st' ->
    Forall (fun n => Within n element) (nodes r).
Proof.
  induction element as [a cs IH|v|v] using Node_ind'; intros st r st';
    rewrite walkDOM_unfold.
  - destruct (checkSpan _ _ _ _ st) as [[res|[]] st1|e] eqn:Hc; [| |discriminate].
    + intros H; inversion H; subst. apply checkSpan_nodes in Hc.
      rewrite Hc. constructor; [apply WithinSelf|constructor].
    + cbn [childNodes].
      destruct (scan _ _ _ _ _ _ st1) as [[res|els] st2|e] eqn:Hs; [| |discriminate].
      * intros H; inversion H; subst.
        refine (scanChildren_Forall (fun n => Within n (Elt a cs)) walk _ cs
                  _ _ 0%nat [] [] st1 _ _ (Forall_nil _) (Forall_nil _) Hs).
        -- rewrite Forall_forall in *. intros c Hin st0 r0 st0' Hw.
           specialize (IH c Hin st0 r0 st0' Hw). rewrite Forall_forall in *.
           intros n Hn. eapply WithinChild; [exact Hin|]. apply IH. exact Hn.
        -- rewrite Forall_forall. intros c Hin.
           eapply WithinChild; [exact Hin|apply WithinSelf].
      * unfold finish, bind, get, ret.
        destruct (_ =? _)%nat; [discriminate|].
        destruct (_ <? _)%nat; intros H; inversion H; subst; cbn [nodes].
        -- refine (scanChildren_Forall (fun n => Within n (Elt a cs)) walk _ cs
                     _ _ 0%nat [] [] st1 _ _ (Forall_nil _) (Forall_nil _) Hs).
           ++ rewrite Forall_forall in *. intros c Hin st0 r0 st0' Hw.
              specialize (IH c Hin st0 r0 st0' Hw). rewrite Forall_forall in *.
              intros n Hn. eapply WithinChild; [exact Hin|]. apply IH. exact Hn.
           ++ rewrite Forall_forall. intros c Hin.
              eapply WithinChild; [exact Hin|apply WithinSelf].
        -- constructor; [apply WithinSelf|constructor].
  - destruct (checkSpan _ _ _ _ st) as [[res|[]] st1|e] eqn:Hc; [| |discriminate].
    + intros H; inversion H; subst. apply checkSpan_nodes in Hc.
      rewrite Hc. constructor; [apply WithinSelf|constructor].
    + cbn. discriminate.
  - destruct (checkSpan _ _ _ _ st) as [[res|[]] st1|e] eqn:Hc; [| |discriminate].
    + intros H; inversion H; subst. apply checkSpan_nodes in Hc.
      rewrite Hc. constructor; [apply WithinSelf|constructor].
    + cbn. discriminate.
Qed.

End MatcherMore.

Section Formatters.

Local Open Scope nat_scope.

Lemma plainStep_counts (results : list Reported) :
  forall out nf ns,
    exists out',
      fold_left plainStep results (out, nf, ns)
      = (out', nf + length (filter isFail results),
         ns + length (filter (fun r => negb (isFail r)) results)).
Proof.
  induction results as [|r more IH]; intros out nf ns; cbn [fold_left filter].
  - exists out. rewrite !Nat.add_0_r. reflexivity.
  - destruct (plainStep (out, nf, ns) r) as [[o a] b] eqn:E.
    destruct (IH o a b) as (out' & Hout). rewrite Hout. exists out'.
    unfold plainStep in E. unfold isFail.
    destruct (type (result r)); inversion E; subst; cbn [negb length];
      repeat match goal with
             | |- (_, _) = (_, _) => f_equal
             end; lia.
Qed.

Lemma filter_partition_length {A} (p : A -> bool) (l : list A) :
  length (filter p l) + length (filter (fun x => negb (p x)) l) = length l.
Proof.
  induction l as [|x l IH]; [reflexivity|].
  cbn [filter]. destruct (p x); cbn [negb length]; lia.
Qed.

(** X10.  The summary of [plainFormat] counts right: the semantic
    differences are the results of type [fail], and the two counters add
    up to the number of results. *)
Theorem plainFormat_summary :
  forall results : list Reported,
    exists body semanticDiffs syntacticDiffs,
      plainFormat None results
      = body ++ plainSummary semanticDiffs syntacticDiffs /\
      semanticDiffs = length (filter isFail results) /\
      semanticDiffs + syntacticDiffs = length results.
Proof.
  intros results. unfold plainFormat.
  destruct (plainStep_counts results [] 0 0) as (out' & Hout).
  exists out', (length (filter isFail results)),
         (length (filter (fun r => negb (isFail r)) results)).
  unfold str in *. rewrite Hout. cbn [Nat.add].
  split; [reflexivity|]. split; [reflexivity|].
  apply filter_partition_length.
Qed.

Variable encodeXml : string -> string.

Lemma some_eq {A} (a b : A) : Some a = Some b -> a = b.
Proof. intros H. congruence. Qed.

Lemma testCases_uniform (article : str) (h : Heap) (b : bool)
      (rs : list DiffResult) :
  forall out,
    testCases article h b (map (mkReported b) rs) = Some out ->
    exists tcs,
      Forall2 (fun r tc => testCase article h (mkReported b r) = Some tc) rs tcs /\
      out = concat tcs.
Proof.
  induction rs as [|r more IH]; intros out; cbn [map testCases].
  - intros H; apply some_eq in H; subst out. exists []. split; [constructor|reflexivity].
  - cbn [selser]. rewrite Bool.eqb_reflx.
    destruct (testCase article h (mkReported b r)) as [tc|] eqn:Htc; [|discriminate].
    destruct (testCases article h b (map (mkReported b) more)) as [rest|] eqn:Hrest;
      [|discriminate].
    intros H; apply some_eq in H; subst out. destruct (IH rest eq_refl) as (tcs & Hf & ->).
    exists (tc :: tcs). split; [constructor; assumption|reflexivity].
Qed.

Lemma testCases_merged (article : str) (h : Heap) (diffs selserDiffs : list DiffResult) :
  selserDiffs <> [] ->
  forall out,
    testCases article h false (mergeResults diffs selserDiffs) = Some out ->
    exists tcs1 tcs2,
      Forall2 (fun r tc => testCase article h (mkReported false r) = Some tc)
              diffs tcs1 /\
      Forall2 (fun r tc => testCase article h (mkReported true r) = Some tc)
              selserDiffs tcs2 /\
      out = concat tcs1 ++ s2l "</testsuite>" ++ [nl] ++
            outputTestSuite article true ++ concat tcs2.
Proof.
  intros Hne. unfold mergeResults.
  induction diffs as [|r more IH]; intros out; cbn [map app].
  - destruct selserDiffs as [|s ss]; [contradiction|].
    cbn [map testCases selser Bool.eqb].
    destruct (testCase article h (mkReported true s)) as [tc|] eqn:Htc; [|discriminate].
    destruct (testCases article h true (map (mkReported true) ss)) as [rest|] eqn:Hrest;
      [|discriminate].
    intros H; apply some_eq in H; subst out.
    destruct (testCases_uniform article h true ss rest Hrest) as (tcs & Hf & ->).
    exists [], (tc :: tcs). split; [constructor|]. split; [constructor; assumption|].
    cbn [concat]. rewrite <- !app_assoc. reflexivity.
  - cbn [testCases selser Bool.eqb].
    destruct (testCase article h (mkReported false r)) as [tc|] eqn:Htc; [|discriminate].
    destruct (testCases article h false _) as [rest|] eqn:Hrest; [|discriminate].
    intros H; apply some_eq in H; subst out.
    destruct (IH rest eq_refl) as (tcs1 & tcs2 & H1 & H2 & ->).
    exists (tc :: tcs1), tcs2. split; [constructor; assumption|].
    split; [assumption|]. cbn [concat]. rewrite <- !app_assoc. reflexivity.
Qed.

(** X11.  For the results that [fetch] puts together, both rounds having
    some, [xmlFormat] writes two test suites: the first with the test cases
    of the first round, the second, marked selser, with those of the
    second round, each in the order of the results. *)
Theorem xmlFormat_two_suites :
  forall (prefix title : string) (diffs selserDiffs : list DiffResult)
         (profile : option Profile) (h : Heap) (out : str),
    diffs <> [] -> selserDiffs <> [] ->
    xmlFormat encodeXml None prefix title (mergeResults diffs selserDiffs)
      profile h = Some out ->
    let article := encodeAttribute (s2l prefix ++ s2l ":" ++ s2l title) in
    exists tcs1 tcs2,
      Forall2 (fun r tc => testCase article h (mkReported false r) = Some tc)
              diffs tcs1 /\
      Forall2 (fun r tc => testCase article h (mkReported true r) = Some tc)
              selserDiffs tcs2 /\
      out = s2l "<testsuites>" ++ [nl] ++
            outputTestSuite article false ++ concat tcs1 ++
            s2l "</testsuite>" ++ [nl] ++
            outputTestSuite article true ++ concat tcs2 ++
            s2l "</testsuite>" ++ [nl] ++
            perfStats encodeXml profile ++ s2l "</testsuites>".
Proof.
  intros prefix title diffs selserDiffs profile h out Hd Hs. unfold xmlFormat.
  cbv zeta.
  set (article := encodeAttribute (s2l prefix ++ s2l ":" ++ s2l title)).
  destruct (mergeResults diffs selserDiffs) as [|r0 rest] eqn:Hm.
  { destruct diffs; [contradiction|discriminate Hm]. }
  assert (Hsel : selser r0 = false).
  { destruct diffs as [|d ds]; [contradiction|].
    unfold mergeResults in Hm. cbn in Hm. inversion Hm. reflexivity. }
  rewrite Hsel, <- Hm.
  destruct (testCases article h false (mergeResults diffs selserDiffs))
    as [cases|] eqn:Hcases; [|discriminate].
  intros H; apply some_eq in H; subst out.
  destruct (testCases_merged article h diffs selserDiffs Hs cases Hcases)
    as (tcs1 & tcs2 & H1 & H2 & ->).
  exists tcs1, tcs2. split; [exact H1|]. split; [exact H2|].
  rewrite <- !app_assoc. reflexivity.
Qed.

End Formatters.

Section ReportOfClassifier.

Variable decodedCommentLength : Node -> Z.
Variable skipped : Node -> list Node -> nat.
Variable outerHTML : Node -> string.
Variable normalizeOutBody : Node -> string.
Variable normalizeOut : string -> string.
Variable serializeNode : Node -> string.
Variable formatHTML : string -> string.
Variable diffHtml : string -> string -> string.
Variable encodeXml : string -> string.

Local Abbreviation check :=
  (checkIfSignificant decodedCommentLength skipped outerHTML normalizeOutBody
     normalizeOut serializeNode formatHTML diffHtml).
Local Abbreviation classifyOne :=
  (classifyOffset decodedCommentLength skipped normalizeOut serializeNode
     formatHTML diffHtml).
Local Abbreviation full :=
  (fullDiffs decodedCommentLength skipped normalizeOut serializeNode
     formatHTML diffHtml).

Local Abbreviation Complete :=
  (fun r : DiffResult => type r = fail -> exists d, htmlDiff r = Some d).

Lemma fullDiffs_complete (data : Data) (offsets : list OffsetPair) :
  forall w results w',
    full data offsets w = Normal results w' -> Forall Complete results.
Proof.
  induction offsets as [|o more IH]; intros w results w'; cbn [fullDiffs].
  - intros H; inversion H; subst. constructor.
  - destruct (classifyOne data o w) as [r w1|e] eqn:Hone; [|discriminate].
    destruct (full data more w1) as [rs w2|e] eqn:Hrest; [|discriminate].
    intros H; inversion H; subst. constructor; [|eapply IH; exact Hrest].
    destruct (classifyOffset_inv _ _ _ _ _ _ _ _ _ _ _ Hone)
      as (_ & _ & origHTML & newHTML & _ & _ & _ & _ & _ & _ & Hts).
    destruct Hts as (_ & Hfail & _). intros Hf.
    destruct (Hfail Hf) as [Hd _]. eexists. exact Hd.
Qed.

Lemma check_complete (offsets : list OffsetPair) (data : Data) (w w' : World)
      (results : list DiffResult) :
  check offsets data w = Normal results w' -> Forall Complete results.
Proof.
  unfold checkIfSignificant.
  destruct (negb _); [destruct (String.eqb _ _)|];
    try (apply fullDiffs_complete).
  intros H; inversion H; subst. apply Forall_forall. intros r Hin.
  apply in_map_iff in Hin. destruct Hin as (o & <- & _). cbn. discriminate.
Qed.

Lemma testCases_defined (article : str) (h : Heap) (rs : list Reported) :
  Forall (fun r => Complete (result r)) rs ->
  forall b, exists out, testCases article h b rs = Some out.
Proof.
  induction 1 as [|r rs Hr Hrs IH]; intros b; cbn [testCases].
  - eexists. reflexivity.
  - assert (Htc : exists tc, testCase article h r = Some tc).
    { unfold testCase. destruct (type (result r)) eqn:Et.
      - eexists. reflexivity.
      - destruct (Hr eq_refl) as (d & Hd). rewrite Hd. eexists. reflexivity. }
    destruct Htc as (tc & Htc). rewrite Htc.
    destruct (IH (selser r)) as (out & Hout). rewrite Hout.
    eexists. reflexivity.
Qed.

(** X12.  On results that come from [checkIfSignificant], [xmlFormat]
    returns a report: every result of type [fail] has its [htmlDiff], so
    that [encodeXmlEntities] is never applied to [undefined]. *)
Theorem xmlFormat_of_classified :
  forall (offsets1 offsets2 : list OffsetPair) (data1 data2 : Data)
         (w1 w1' w2 w2' : World) (diffs selserDiffs : list DiffResult)
         (err : option ErrorValue) (prefix title : string)
         (profile : option Profile) (h : Heap),
    check offsets1 data1 w1 = Normal diffs w1' ->
    check offsets2 data2 w2 = Normal selserDiffs w2' ->
    exists out,
      xmlFormat encodeXml err prefix title (mergeResults diffs selserDiffs)
        profile h = Some out.
Proof.
  intros offsets1 offsets2 data1 data2 w1 w1' w2 w2' diffs selserDiffs err
         prefix title profile h H1 H2.
  apply check_complete in H1. apply check_complete in H2.
  assert (Hall : Forall (fun r => Complete (result r))
                   (mergeResults diffs selserDiffs)).
  { unfold mergeResults. apply Forall_app. split; apply Forall_map;
      cbn [result]; assumption. }
  unfold xmlFormat. destruct err as [e|]; [eexists; reflexivity|].
  destruct (mergeResults diffs selserDiffs) as [|r0 rest] eqn:Hm;
    [eexists; reflexivity|].
  destruct (testCases_defined
              (encodeAttribute (s2l prefix ++ s2l ":" ++ s2l title)) h
              (r0 :: rest) Hall (selser r0)) as (out & Hout).
  rewrite Hout. eexists. reflexivity.
Qed.

End ReportOfClassifier.

(* ------------------------------------------------------------------ *)
(** *** The further properties on examples                              *)
(* ------------------------------------------------------------------ *)

Import Examples MoreExamples.

Lemma encodeXmlEntities_injective_witness :
  s2l "a<b&c" = s2l "a<b&c".
Proof.
  apply encodeXmlEntities_injective. reflexivity.
Defined.

Lemma formatDiff_context_witness :
  exists pre1 post1 pre2 post2,
    formatDiff "<div>foo" "<div>foo</div>" spans (0, 1)%nat 25
    = l2s (s2l "----" ++ [nl] ++
           pre1 ++
           substring (s2l "<div>foo") (start (spans (fst (0, 1)%nat)))
             (end_ (spans (fst (0, 1)%nat))) ++
           post1 ++ [nl] ++ s2l "++++" ++ [nl] ++
           pre2 ++
           substring (s2l "<div>foo</div>") (start (spans (snd (0, 1)%nat)))
             (end_ (spans (snd (0, 1)%nat))) ++
           post2) /\
    Z.of_nat (length pre1) <= 25 /\ Z.of_nat (length post1) <= 25 /\
    Z.of_nat (length pre2) <= 25 /\ Z.of_nat (length post2) <= 25.
Proof.
  apply (formatDiff_context "<div>foo" "<div>foo</div>" spans (0, 1)%nat 25).
  - lia.
  - simpl. lia.
  - simpl. lia.
Defined.

Lemma spans_only_adjusted_witness :
  exists results w',
    classify [(0, 1)%nat] implicitCloseChanged world0 = Normal results w' /\
    Adjusted (heap world0) (heap w').
Proof.
  eexists _, _. split.
  - vm_compute. reflexivity.
  - eapply (spans_only_adjusted commentLen loneBlock noMarkup render same render
              same textDiff [(0, 1)%nat] implicitCloseChanged world0).
    vm_compute. reflexivity.
Defined.

Lemma calls_all_or_none_witness :
  exists results w' cs,
    classify [(4, 5)%nat; (2, 3)%nat] changedWord world0 = Normal results w' /\
    calls w' = calls world0 ++ cs /\
    CallTriples changedWord 2 cs /\
    length cs = 6%nat /\
    length (filter isHtmlDiffCall cs) = 2%nat.
Proof.
  assert (H : exists results w',
             classify [(4, 5)%nat; (2, 3)%nat] changedWord world0
             = Normal results w')
    by (eexists _, _; vm_compute; reflexivity).
  destruct H as (results & w' & H). exists results, w'.
  destruct (calls_all_or_none commentLen loneBlock noMarkup render same render
              same textDiff [(4, 5)%nat; (2, 3)%nat] changedWord world0 w'
              results H)
    as (cs & Hc & Hn).
  exists cs. split; [exact H|]. split; [exact Hc|]. exact Hn.
Defined.

Lemma matched_nodes_within_witness :
  Forall (fun n => Within n bodyWithTransclusion) [partA].
Proof.
  apply (matched_nodes_within (mkRange 2 4) 10 commentLen loneBlock
           bodyWithTransclusion initialState (mkResult true [partA])
           (mkState (Some 0) false false)).
  vm_compute. reflexivity.
Defined.

Lemma xmlFormat_two_suites_witness :
  exists out,
    xmlFormat same None "enwiki" "Foo" (mergeResults [skipResult] [failResult])
      None spans = Some out /\
    exists tcs1 tcs2,
      Forall2 (fun r tc =>
                 testCase (encodeAttribute (s2l "enwiki" ++ s2l ":" ++ s2l "Foo"))
                   spans (mkReported false r) = Some tc) [skipResult] tcs1 /\
      Forall2 (fun r tc =>
                 testCase (encodeAttribute (s2l "enwiki" ++ s2l ":" ++ s2l "Foo"))
                   spans (mkReported true r) = Some tc) [failResult] tcs2 /\
      out = s2l "<testsuites>" ++ [nl] ++
            outputTestSuite
              (encodeAttribute (s2l "enwiki" ++ s2l ":" ++ s2l "Foo")) false ++
            concat tcs1 ++ s2l "</testsuite>" ++ [nl] ++
            outputTestSuite
              (encodeAttribute (s2l "enwiki" ++ s2l ":" ++ s2l "Foo")) true ++
            concat tcs2 ++ s2l "</testsuite>" ++ [nl] ++
            perfStats same None ++ s2l "</testsuites>".
Proof.
  eexists. split.
  - vm_compute. reflexivity.
  - apply (xmlFormat_two_suites same "enwiki" "Foo" [skipResult] [failResult]
             None spans).
    + discriminate.
    + discriminate.
    + vm_compute. reflexivity.
Defined.

Lemma xmlFormat_of_classified_witness :
  exists diffs w',
    classify [(4, 5)%nat] changedWord world0 = Normal diffs w' /\
    exists out,
      xmlFormat same None "enwiki" "Foo" (mergeResults diffs diffs) None
        (heap w') = Some out.
Proof.
  eexists _, _. split.
  - vm_compute. reflexivity.
  - eapply (xmlFormat_of_classified commentLen loneBlock noMarkup render same
              render same textDiff same [(4, 5)%nat] [(4, 5)%nat]
              changedWord changedWord world0 _ world0 _);
      vm_compute; reflexivity.
Defined.

Lemma requestUri_trailing_slash_witness :
  requestUri same
    (mkPostOptions (localParsoid ++ "/") "en.wikipedia.org" "Foo" true 42)
  = requestUri same
      (mkPostOptions localParsoid "en.wikipedia.org" "Foo" true 42).
Proof.
  apply (requestUri_trailing_slash same localParsoid "en.wikipedia.org" "Foo"
           true 42).
  intros v H. apply (f_equal (@rev ascii)) in H.
  rewrite rev_app_distr in H. cbn in H. discriminate H.
Defined.
